(** * The task store of My Little Task Box (composable [useTasks.ts])

    A shallow embedding of the module-level store of [useTasks.ts]
    (the reactive array [tasks], the counter [nextId], the three computed
    views and the seven operations returned by [useTasks()]) together with
    the [filteredTasks] view of [TaskList.vue], followed by the properties
    the specification states about them.

    Conventions of the embedding.
    - A JavaScript string is the list of its UTF-16 code units.
    - A JavaScript number that holds an id or an array index is an integer
      of [Z]: the counter only ever holds [1], [2], ... and arithmetic on
      such values is exact in the range a run can reach.
    - A [Date] is its time value (milliseconds since the epoch) in [Z].
      Every evaluation of [new Date()] is one reading of the system clock;
      the clock is an oracle [nat -> Z] giving the value of the k-th
      reading, and the world counts the readings made so far.
    - The module-level variables are threaded through a state monad. *)

From Stdlib Require Import ZArith NArith String Ascii Sorted.
From stdpp Require Import base tactics option list sorting.

Local Open Scope Z_scope.

(* ===================================================================== *)
(** ** JavaScript strings and [String.prototype.trim] *)
(* ===================================================================== *)

(** A string value: the sequence of its 16-bit code units. *)
Definition jsstring : Type := list N.

(** The code units of an ASCII literal, for writing examples. *)
Definition js (s : string) : jsstring :=
  List.map N_of_ascii (list_ascii_of_string s).

(** ECMAScript's WhiteSpace and LineTerminator code points, the ones
    [trim] strips: TAB, LF, VT, FF, CR, SP, NBSP, U+1680, U+2000..U+200A,
    U+2028, U+2029, U+202F, U+205F, U+3000 and U+FEFF. All of them are in
    the basic plane, so the test is on one code unit. *)
Definition isWhiteSpace (c : N) : bool :=
  (existsb (N.eqb c)
     [9; 10; 11; 12; 13; 32; 160; 5760; 8232; 8233; 8239; 8287;
      12288; 65279]
   || ((8192 <=? c) && (c <=? 8202)))%N.

(** [trimStart]: drop the longest prefix of white space. *)
Fixpoint trimStart (s : jsstring) : jsstring :=
  match s with
  | [] => []
  | c :: s' => if isWhiteSpace c then trimStart s' else s
  end.

(** [trimEnd]: drop the longest suffix of white space. *)
Definition trimEnd (s : jsstring) : jsstring :=
  rev (trimStart (rev s)).

(** [s.trim()] *)
Definition trim (s : jsstring) : jsstring := trimEnd (trimStart s).

(* ===================================================================== *)
(** ** The data model *)
(* ===================================================================== *)

(** [export interface Task] *)
Record Task : Type := mkTask {
  id : Z;
  title : jsstring;
  description : jsstring;
  completed : bool;
  createdAt : Z;
  updatedAt : Z
}.

(** [Partial<Pick<Task, 'title' | 'description' | 'completed'>>]:
    [None] is a property the object literal does not name. *)
Record TaskUpdates : Type := mkUpdates {
  u_title : option jsstring;
  u_description : option jsstring;
  u_completed : option bool
}.

(** The module-level state: [tasks.value], [nextId], and the number of
    clock readings made so far. *)
Record World : Type := mkWorld {
  tasks : list Task;
  nextId : Z;
  reads : nat
}.

(** The system clock: the value returned by the k-th [new Date()]. *)
Definition Clock : Type := nat → Z.

(** The state when the module has just been loaded:
    [const tasks = ref<Task[]>([])], [let nextId = 1]. *)
Definition init : World := mkWorld [] 1 0.

(* ===================================================================== *)
(** ** The state monad of the module *)
(* ===================================================================== *)

Definition M (A : Type) : Type := World → A * World.

#[global] Instance M_ret : MRet M := λ A a w, (a, w).
#[global] Instance M_bind : MBind M :=
  λ A B f m w, let '(a, w') := m w in f a w'.

(** The final state and the returned value of a computation. *)
Definition exec {A} (m : M A) (w : World) : World := snd (m w).
Definition eval {A} (m : M A) (w : World) : A := fst (m w).

(** [tasks.value] read. *)
Definition getTasks : M (list Task) := λ w, (tasks w, w).

(** [tasks.value = l] *)
Definition setTasks (l : list Task) : M unit :=
  λ w, (tt, mkWorld l (nextId w) (reads w)).

(** [nextId++]: the old value is the result. *)
Definition postIncrNextId : M Z :=
  λ w, (nextId w, mkWorld (tasks w) (nextId w + 1) (reads w)).

(** [nextId = n] *)
Definition setNextId (n : Z) : M unit :=
  λ w, (tt, mkWorld (tasks w) n (reads w)).

(** [new Date()]: the next reading of the clock. *)
Definition newDate (clk : Clock) : M Z :=
  λ w, (clk (reads w), mkWorld (tasks w) (nextId w) (S (reads w))).

(* ===================================================================== *)
(** ** Array methods used by the store *)
(* ===================================================================== *)

(** [arr.findIndex(p)]: the index of the first element satisfying [p],
    or [-1]. *)
Definition findIndex (P : Task → Prop) `{∀ x, Decision (P x)}
    (l : list Task) : Z :=
  match list_find P l with
  | Some (i, _) => Z.of_nat i
  | None => -1
  end.

(** [arr.find(p)]: the first element satisfying [p], or [undefined]. *)
Definition find (P : Task → Prop) `{∀ x, Decision (P x)}
    (l : list Task) : option Task :=
  snd <$> list_find P l.

(** [tasks.value.push(t)] *)
Definition push (t : Task) : M unit :=
  λ w, (tt, mkWorld (tasks w ++ [t]) (nextId w) (reads w)).

(** [tasks.value.splice(i, 1)]: remove the element at index [i]. *)
Definition splice1 (i : Z) : M unit :=
  λ w, (tt, mkWorld (delete (Z.to_nat i) (tasks w)) (nextId w) (reads w)).

(** [tasks.value[i] = t], for an index inside the array (the only use in
    the store; stdpp's insert leaves the list alone elsewhere, where
    JavaScript would extend the array). *)
Definition setAt (i : Z) (t : Task) : M unit :=
  λ w, (tt, mkWorld (<[Z.to_nat i := t]> (tasks w)) (nextId w) (reads w)).

(* ===================================================================== *)
(** ** The computed views *)
(* ===================================================================== *)

(** [tasks.value.filter((task) => task.completed)] *)
Definition completedTasks (w : World) : list Task :=
  filter (λ task, completed task = true) (tasks w).

(** [tasks.value.filter((task) => !task.completed)] *)
Definition pendingTasks (w : World) : list Task :=
  filter (λ task, negb (completed task) = true) (tasks w).

(** [tasks.value.length] *)
Definition totalTasks (w : World) : Z := Z.of_nat (length (tasks w)).

(* ===================================================================== *)
(** ** The operations of [useTasks()] *)
(* ===================================================================== *)

(** [{ ...existingTask, ...updates, updatedAt: now }] *)
Definition merge (existingTask : Task) (updates : TaskUpdates) (now : Z)
    : Task :=
  {| id := id existingTask;
     title := default (title existingTask) (u_title updates);
     description := default (description existingTask) (u_description updates);
     completed := default (completed existingTask) (u_completed updates);
     createdAt := createdAt existingTask;
     updatedAt := now |}.

Section Operations.

Variable clk : Clock.

(** [addTask(title, description = '')]; the second argument is [None]
    when the caller leaves it out. The empty string is the only falsy
    string, so [!title.trim()] tests for emptiness. *)
Definition addTask (title0 : jsstring) (description0 : option jsstring)
    : M unit :=
  let description1 := default [] description0 in
  if bool_decide (trim title0 = []) then mret tt
  else
    i ← postIncrNextId;
    c ← newDate clk;
    u ← newDate clk;
    let newTask :=
      {| id := i;
         title := trim title0;
         description := trim description1;
         completed := false;
         createdAt := c;
         updatedAt := u |} in
    push newTask.

(** [updateTask(id, updates)]. The lookup after [findIndex] cannot
    miss (lemma [findIndex_lookup] below); the source asserts so with
    its [!]. *)
Definition updateTask (i : Z) (updates : TaskUpdates) : M unit :=
  ts ← getTasks;
  let taskIndex := findIndex (λ task, id task = i) ts in
  if bool_decide (taskIndex = -1) then mret tt
  else
    match ts !! Z.to_nat taskIndex with
    | Some existingTask =>
        now ← newDate clk;
        setAt taskIndex (merge existingTask updates now)
    | None => mret tt
    end.

(** [deleteTask(id)] *)
Definition deleteTask (i : Z) : M unit :=
  ts ← getTasks;
  let taskIndex := findIndex (λ task, id task = i) ts in
  if bool_decide (taskIndex = -1) then mret tt
  else splice1 taskIndex.

(** [toggleTaskComplete(id)] *)
Definition toggleTaskComplete (i : Z) : M unit :=
  ts ← getTasks;
  match find (λ task, id task = i) ts with
  | Some task =>
      updateTask i (mkUpdates None None (Some (negb (completed task))))
  | None => mret tt
  end.

(** [clearCompletedTasks()] *)
Definition clearCompletedTasks : M unit :=
  ts ← getTasks;
  setTasks (filter (λ task, negb (completed task) = true) ts).

(** [clearAllTasks()] *)
Definition clearAllTasks : M unit :=
  _ ← setTasks [];
  setNextId 1.

(** [getTaskById(id)] *)
Definition getTaskById (i : Z) : M (option Task) :=
  ts ← getTasks;
  mret (find (λ task, id task = i) ts).

End Operations.

(* ===================================================================== *)
(** ** The [filteredTasks] views of the presentation layer *)
(* ===================================================================== *)

(** ['all' | 'pending' | 'completed'] *)
Inductive FilterMode : Type :=
  | FilterAll
  | FilterPending
  | FilterCompleted.

(** [filteredTasks] of [TaskList.vue]. The [filter] prop is optional and
    [withDefaults] gives it ['all']; the [default] branch of the switch
    returns [props.tasks] itself. *)
Definition filteredTasks (props_tasks : list Task)
    (props_filter : option FilterMode) : list Task :=
  match default FilterAll props_filter with
  | FilterPending =>
      filter (λ task, negb (completed task) = true) props_tasks
  | FilterCompleted =>
      filter (λ task, completed task = true) props_tasks
  | FilterAll => props_tasks
  end.

(** [filteredTasks] of [App.vue], which reads the store's own views. *)
Definition App_filteredTasks (currentFilter : FilterMode) (w : World)
    : list Task :=
  match currentFilter with
  | FilterPending => pendingTasks w
  | FilterCompleted => completedTasks w
  | FilterAll => tasks w
  end.

(* ===================================================================== *)
(** ** Runs of the store *)
(* ===================================================================== *)

(** One call of a mutating operation of the store. *)
Inductive Command : Type :=
  | CAddTask (title0 : jsstring) (description0 : option jsstring)
  | CUpdateTask (i : Z) (updates : TaskUpdates)
  | CDeleteTask (i : Z)
  | CToggleTaskComplete (i : Z)
  | CClearCompletedTasks
  | CClearAllTasks.

Definition step (clk : Clock) (c : Command) : M unit :=
  match c with
  | CAddTask t d => addTask clk t d
  | CUpdateTask i u => updateTask clk i u
  | CDeleteTask i => deleteTask i
  | CToggleTaskComplete i => toggleTaskComplete clk i
  | CClearCompletedTasks => clearCompletedTasks
  | CClearAllTasks => clearAllTasks
  end.

(** Running a sequence of calls, first call first. *)
Fixpoint run (clk : Clock) (cs : list Command) (w : World) : World :=
  match cs with
  | [] => w
  | c :: cs' => run clk cs' (exec (step clk c) w)
  end.

(** The states the store can be in: those some sequence of calls leads to
    from the freshly loaded module. *)
Definition reachable (clk : Clock) (w : World) : Prop :=
  ∃ cs, w = run clk cs init.

(** A clock that never goes back. *)
Definition monotone (clk : Clock) : Prop :=
  ∀ m n : nat, (m ≤ n)%nat → clk m ≤ clk n.

(** The ids a call hands out: the ids of the records an [addTask] call
    appended to the collection, read off the states before and after. *)
Definition assigned (clk : Clock) (c : Command) (w : World) : list Z :=
  match c with
  | CAddTask _ _ =>
      id <$> drop (length (tasks w)) (tasks (exec (step clk c) w))
  | _ => []
  end.

Definition isClearAll (c : Command) : bool :=
  match c with CClearAllTasks => true | _ => false end.

(** A run that also records, oldest first, the ids handed out since the
    last [clearAllTasks] (since the start when there was none). *)
Fixpoint runLog (clk : Clock) (cs : list Command) (w : World)
    (log : list Z) : World * list Z :=
  match cs with
  | [] => (w, log)
  | c :: cs' =>
      runLog clk cs' (exec (step clk c) w)
        (if isClearAll c then [] else log ++ assigned clk c w)
  end.

(** A title as the data model wants it: not empty once trimmed, and with
    nothing for [trim] to remove. *)
Definition trimmedNonEmpty (s : jsstring) : Prop :=
  trim s ≠ [] ∧ trim s = s.

(** The clock of the examples: the k-th reading is [k]. *)
Definition tick : Clock := Z.of_nat.

(** A clock that stands still at [t] (calls within one millisecond). *)
Definition frozen (t : Z) : Clock := λ _, t.

(** The record [addTask] builds in the world [w]. *)
Definition newTaskOf (clk : Clock) (title0 : jsstring)
    (description0 : option jsstring) (w : World) : Task :=
  {| id := nextId w;
     title := trim title0;
     description := trim (default [] description0);
     completed := false;
     createdAt := clk (reads w);
     updatedAt := clk (S (reads w)) |}.

(* ===================================================================== *)
(** ** The effect of one call, as a relation *)
(* ===================================================================== *)

(** [replaceAt clk w k x u]: the world after
    [tasks.value[k] = { ...x, ...u, updatedAt: new Date() }]. *)
Definition replaceAt (clk : Clock) (w : World) (k : nat) (x : Task)
    (u : TaskUpdates) : World :=
  mkWorld (<[k := merge x u (clk (reads w))]> (tasks w)) (nextId w)
    (S (reads w)).

(** The partial object [toggleTaskComplete] passes on for the record [x]. *)
Definition flipCompleted (x : Task) : TaskUpdates :=
  mkUpdates None None (Some (negb (completed x))).

(** [Effect clk w c w']: the call [c] in the world [w] ends in [w'].
    One constructor per path through the source. *)
Inductive Effect (clk : Clock) (w : World) : Command → World → Prop :=
  | EffAddBlank t d :
      trim t = [] → Effect clk w (CAddTask t d) w
  | EffAddFresh t d :
      trim t ≠ [] →
      Effect clk w (CAddTask t d)
        (mkWorld (tasks w ++ [newTaskOf clk t d w]) (nextId w + 1)
           (S (S (reads w))))
  | EffUpdateMiss i u :
      list_find (λ task, id task = i) (tasks w) = None →
      Effect clk w (CUpdateTask i u) w
  | EffUpdateHit i u k x :
      list_find (λ task, id task = i) (tasks w) = Some (k, x) →
      Effect clk w (CUpdateTask i u) (replaceAt clk w k x u)
  | EffDeleteMiss i :
      list_find (λ task, id task = i) (tasks w) = None →
      Effect clk w (CDeleteTask i) w
  | EffDeleteHit i k x :
      list_find (λ task, id task = i) (tasks w) = Some (k, x) →
      Effect clk w (CDeleteTask i)
        (mkWorld (delete k (tasks w)) (nextId w) (reads w))
  | EffToggleMiss i :
      list_find (λ task, id task = i) (tasks w) = None →
      Effect clk w (CToggleTaskComplete i) w
  | EffToggleHit i k x :
      list_find (λ task, id task = i) (tasks w) = Some (k, x) →
      Effect clk w (CToggleTaskComplete i)
        (replaceAt clk w k x (flipCompleted x))
  | EffClearCompleted :
      Effect clk w CClearCompletedTasks
        (mkWorld (filter (λ task, negb (completed task) = true) (tasks w))
           (nextId w) (reads w))
  | EffClearAll :
      Effect clk w CClearAllTasks (mkWorld [] 1 (reads w)).

(* ===================================================================== *)
(** ** Invariants *)
(* ===================================================================== *)

(** The log holds increasing ids, all of them below the counter, and the
    ids of the collection are among them in the same order. *)
Definition logOk (w : World) (log : list Z) : Prop :=
  StronglySorted Z.lt log ∧
  Forall (λ i, i < nextId w) log ∧
  (id <$> tasks w) `sublist_of` log.

(** No record was updated before it was created, and every [updatedAt]
    of the collection is one of the readings already taken. *)
Definition timesOk (clk : Clock) (w : World) : Prop :=
  Forall (λ t, createdAt t ≤ updatedAt t ∧
               ∃ n, (n < reads w)%nat ∧ updatedAt t = clk n) (tasks w).

(* ===================================================================== *)
(** ** Concrete runs used in the examples *)
(* ===================================================================== *)

(** [{ title: "X" }] *)
Definition titleX : TaskUpdates := mkUpdates (Some (js "X")) None None.

(** [{ title: "  " }] *)
Definition titleBlank : TaskUpdates := mkUpdates (Some (js "  ")) None None.

(** [addTask("A")] on the freshly loaded module. *)
Definition oneTask (clk : Clock) : World :=
  run clk [CAddTask (js "A") None] init.

(** [addTask("A"); addTask("B")] *)
Definition twoTasks (clk : Clock) : World :=
  run clk [CAddTask (js "A") None; CAddTask (js "B") None] init.

(** [addTask("A"); updateTask(1, { title: "  " })] *)
Definition blankTitled : World :=
  run tick [CAddTask (js "A") None; CUpdateTask 1 titleBlank] init.

(* ===================================================================== *)
(** ** The presentation layer around the store *)
(* ===================================================================== *)

(** The reactive state of [TaskInput.vue]: the two inputs and the flag
    that shows the expanded form. *)
Record InputForm : Type := mkForm {
  f_title : jsstring;
  f_description : jsstring;
  isExpanded : bool
}.

(** The event [TaskInput.vue] declares: [add: [title, description]]. *)
Inductive InputEmit : Type :=
  | EmitAdd (title0 description0 : jsstring).

(** [addTask] of [TaskInput.vue]: the form after the call and the events
    emitted, in order. *)
Definition TaskInput_addTask (f : InputForm) : InputForm * list InputEmit :=
  if bool_decide (trim (f_title f) = []) then (f, [])
  else (mkForm [] [] false,
        [EmitAdd (trim (f_title f)) (trim (f_description f))]).

(** [toggleExpanded] of [TaskInput.vue] *)
Definition toggleExpanded (f : InputForm) : InputForm :=
  mkForm (f_title f) (f_description f) (negb (isExpanded f)).

(** [cancelAdd] of [TaskInput.vue] *)
Definition cancelAdd (f : InputForm) : InputForm := mkForm [] [] false.

(** The events [TaskItem.vue] declares: [delete: [id]] and
    ['update-title': [newTitle]]. *)
Inductive ItemEmit : Type :=
  | ItemDelete (i : Z)
  | ItemUpdateTitle (newTitle : jsstring).

(** [handleDelete] of [TaskItem.vue], for an item rendered with the props
    [title] and [description]: [emit('delete', 1)]. The [console.log]
    that follows touches no state and is left out. *)
Definition TaskItem_handleDelete (props_title props_description : jsstring)
    : list ItemEmit :=
  [ItemDelete 1].

(** The events [TaskList.vue] declares. *)
Inductive ListEmit : Type :=
  | ListDelete (i : Z)
  | ListToggleComplete (i : Z)
  | ListUpdate (i : Z) (title0 description0 : jsstring).

(** The forwarding handlers of [TaskList.vue]. *)
Definition TaskList_handleDelete (i : Z) : list ListEmit := [ListDelete i].

Definition TaskList_handleToggleComplete (i : Z) : list ListEmit :=
  [ListToggleComplete i].

Definition TaskList_handleUpdate (i : Z) (title0 description0 : jsstring)
    : list ListEmit :=
  [ListUpdate i title0 description0].

(** The listeners [TaskList.vue] puts on each [TaskItem]: [@delete] is
    bound to [handleDelete]; nothing listens to ['update-title']. *)
Definition TaskList_onItem (e : ItemEmit) : list ListEmit :=
  match e with
  | ItemDelete i => TaskList_handleDelete i
  | ItemUpdateTitle _ => []
  end.

Section App.

Variable clk : Clock.

(** The event handlers of [App.vue]. *)
Definition handleAddTask (title0 description0 : jsstring) : M unit :=
  addTask clk title0 (Some description0).

Definition handleDeleteTask (i : Z) : M unit := deleteTask i.

Definition handleToggleComplete (i : Z) : M unit := toggleTaskComplete clk i.

Definition handleUpdateTask (i : Z) (title0 description0 : jsstring)
    : M unit :=
  updateTask clk i (mkUpdates (Some title0) (Some description0) None).

(** [<TaskInput @add="handleAddTask" />] *)
Definition App_onInput (e : InputEmit) : M unit :=
  match e with EmitAdd t d => handleAddTask t d end.

(** [<TaskList @delete="handleDeleteTask"
      @toggle-complete="handleToggleComplete" @update="handleUpdateTask" />] *)
Definition App_onList (e : ListEmit) : M unit :=
  match e with
  | ListDelete i => handleDeleteTask i
  | ListToggleComplete i => handleToggleComplete i
  | ListUpdate i t d => handleUpdateTask i t d
  end.

End App.

(** Handing a sequence of emitted events to a listener, first one first. *)
Fixpoint dispatch {E} (h : E → M unit) (es : list E) : M unit :=
  match es with
  | [] => mret tt
  | e :: es' => _ ← h e; dispatch h es'
  end.

(** Submitting the form of [TaskInput.vue] inside [App.vue]: the form
    afterwards and the store afterwards. *)
Definition submit (clk : Clock) (f : InputForm) (w : World)
    : InputForm * World :=
  (fst (TaskInput_addTask f),
   exec (dispatch (App_onInput clk) (snd (TaskInput_addTask f))) w).

(** A click on the Delete button of the [TaskItem] that [TaskList.vue]
    renders for the task [x], inside [App.vue]. *)
Definition clickDelete (clk : Clock) (x : Task) : M unit :=
  dispatch (App_onList clk)
    (TaskItem_handleDelete (title x) (description x) ≫= TaskList_onItem).

(** What [TaskList.vue] shows inside [App.vue]:
    [<TaskList :tasks="filteredTasks" :filter="currentFilter" />] hands
    the list [App.vue] has already filtered to [TaskList.vue], which
    filters it again by the same mode. *)
Definition shownTasks (currentFilter : FilterMode) (w : World) : list Task :=
  filteredTasks (App_filteredTasks currentFilter w) (Some currentFilter).

(* ===================================================================== *)
(** ** Further invariants *)
(* ===================================================================== *)

(** The record [x] with [updatedAt] moved to [now] and nothing else
    changed. *)
Definition touch (x : Task) (now : Z) : Task :=
  mkTask (id x) (title x) (description x) (completed x) (createdAt x) now.

(** The log is [1, 2, ..., n] and the counter is [n + 1]. *)
Definition countOk (w : World) (log : list Z) : Prop :=
  log = seqZ 1 (Z.of_nat (length log)) ∧
  nextId w = 1 + Z.of_nat (length log).

(** The [createdAt] stamps do not decrease along the collection, and each
    is one of the readings already taken. *)
Definition createdOk (clk : Clock) (w : World) : Prop :=
  StronglySorted Z.le (createdAt <$> tasks w) ∧
  Forall (λ t, ∃ n, (n < reads w)%nat ∧ createdAt t = clk n) (tasks w).

(** The clock as seen after [r] readings have been taken, and a world
    whose count of readings is moved on by [r]. *)
Definition shiftClock (r : nat) (clk : Clock) : Clock := λ n, clk (r + n)%nat.

Definition shiftReads (r : nat) (w : World) : World :=
  mkWorld (tasks w) (nextId w) (r + reads w).

(** [{ description: " e " }] *)
Definition descriptionPadded : TaskUpdates :=
  mkUpdates None (Some (js " e ")) None.

(** [addTask("A"); updateTask(1, { description: " e " })] *)
Definition paddedDescription : World :=
  run tick [CAddTask (js "A") None; CUpdateTask 1 descriptionPadded] init.

(* ===================================================================== *)
(** ** Properties of [trim] *)
(* ===================================================================== *)

Lemma trimStart_head (s : jsstring) :
  trimStart s = [] ∨ ∃ c s', trimStart s = c :: s' ∧ isWhiteSpace c = false.
Proof.
  induction s as [|c s IH]; simpl; [by left|].
  destruct (isWhiteSpace c) eqn:Hc; [done|].
  right. by exists c, s.
Qed.

Lemma trimStart_fixed (c : N) (s : jsstring) :
  isWhiteSpace c = false → trimStart (c :: s) = c :: s.
Proof. intros Hc. simpl. by rewrite Hc. Qed.

Lemma trimStart_idem (s : jsstring) : trimStart (trimStart s) = trimStart s.
Proof.
  destruct (trimStart_head s) as [->|(c & s' & -> & Hc)]; [done|].
  by apply trimStart_fixed.
Qed.

Lemma trimStart_snoc (s : jsstring) (c : N) :
  isWhiteSpace c = false → trimStart (s ++ [c]) = trimStart s ++ [c].
Proof.
  intros Hc. induction s as [|d s IH]; simpl.
  - by rewrite Hc.
  - by destruct (isWhiteSpace d).
Qed.

Lemma trimStart_all_white (s : jsstring) :
  Forall (λ c, isWhiteSpace c = true) s → trimStart s = [].
Proof. induction 1 as [|c s Hc _ IH]; simpl; [done|]. by rewrite Hc. Qed.

Lemma trimEnd_cons (c : N) (s : jsstring) :
  isWhiteSpace c = false → trimEnd (c :: s) = c :: trimEnd s.
Proof.
  intros Hc. unfold trimEnd. simpl.
  rewrite trimStart_snoc by done. by rewrite rev_app_distr.
Qed.

Lemma trimEnd_idem (s : jsstring) : trimEnd (trimEnd s) = trimEnd s.
Proof. unfold trimEnd. by rewrite rev_involutive, trimStart_idem. Qed.

Lemma trimStart_trimEnd (s : jsstring) :
  trimStart (trimEnd (trimStart s)) = trimEnd (trimStart s).
Proof.
  destruct (trimStart_head s) as [->|(c & s' & -> & Hc)]; [done|].
  rewrite trimEnd_cons by done. by apply trimStart_fixed.
Qed.

Lemma trim_idem (s : jsstring) : trim (trim s) = trim s.
Proof. unfold trim. by rewrite trimStart_trimEnd, trimEnd_idem. Qed.

Lemma trim_all_white (s : jsstring) :
  Forall (λ c, isWhiteSpace c = true) s → trim s = [].
Proof. intros Hs. unfold trim. by rewrite trimStart_all_white. Qed.

Lemma trim_trimmedNonEmpty (s : jsstring) :
  trim s ≠ [] → trimmedNonEmpty (trim s).
Proof. intros Hs. split; by rewrite trim_idem. Qed.

(* ===================================================================== *)
(** ** Properties of the array methods *)
(* ===================================================================== *)

Section ArrayMethods.

Context (P : Task → Prop) {Pdec : ∀ x, Decision (P x)}.

Lemma findIndex_miss (l : list Task) :
  findIndex P l = -1 ↔ list_find P l = None.
Proof.
  unfold findIndex. destruct (list_find P l) as [[k x]|]; [|done].
  split; [lia|done].
Qed.

Lemma findIndex_hit (l : list Task) (k : nat) (x : Task) :
  list_find P l = Some (k, x) →
  findIndex P l = Z.of_nat k ∧ findIndex P l ≠ -1 ∧ l !! k = Some x.
Proof.
  intros H. unfold findIndex. rewrite H.
  apply list_find_Some in H as (? & _). split_and!; [done|lia|done].
Qed.

(** The index [findIndex] returns is inside the array: the lookup that
    follows it in [updateTask] always finds a record. *)
Lemma findIndex_lookup (l : list Task) :
  findIndex P l ≠ -1 → is_Some (l !! Z.to_nat (findIndex P l)).
Proof.
  unfold findIndex. destruct (list_find P l) as [[k x]|] eqn:H; [|done].
  intros _. apply list_find_Some in H as (H & _).
  rewrite Nat2Z.id. eauto.
Qed.

End ArrayMethods.

(** No record carries the id [i]. *)
Lemma list_find_absent (i : Z) (l : list Task) :
  i ∉ (id <$> l) → list_find (λ task, id task = i) l = None.
Proof.
  intros Hi. apply list_find_None, Forall_forall. intros x Hx Hid.
  apply Hi, list_elem_of_fmap. by exists x.
Qed.

(* ===================================================================== *)
(** ** What each operation does to the world *)
(* ===================================================================== *)

Section OperationEquations.

Variable clk : Clock.

Lemma addTask_blank t d w : trim t = [] → addTask clk t d w = (tt, w).
Proof. intros H. unfold addTask. by rewrite bool_decide_eq_true_2. Qed.

Lemma addTask_fresh t d w :
  trim t ≠ [] →
  addTask clk t d w =
    (tt, mkWorld (tasks w ++ [newTaskOf clk t d w]) (nextId w + 1)
           (S (S (reads w)))).
Proof. intros H. unfold addTask. by rewrite bool_decide_eq_false_2. Qed.

Lemma updateTask_miss i u w :
  list_find (λ task, id task = i) (tasks w) = None →
  updateTask clk i u w = (tt, w).
Proof.
  intros H. unfold updateTask, mbind, M_bind, getTasks.
  by rewrite bool_decide_eq_true_2 by by apply findIndex_miss.
Qed.

Lemma updateTask_hit i u w k x :
  list_find (λ task, id task = i) (tasks w) = Some (k, x) →
  updateTask clk i u w =
    (tt, replaceAt clk w k x u).
Proof.
  intros H. unfold updateTask, mbind, M_bind, getTasks.
  destruct (findIndex_hit _ _ _ _ H) as (Hk & Hne & Hx).
  rewrite bool_decide_eq_false_2 by done.
  rewrite Hk, Nat2Z.id, Hx. unfold newDate, setAt. simpl.
  by rewrite Nat2Z.id.
Qed.

Lemma deleteTask_miss i w :
  list_find (λ task, id task = i) (tasks w) = None →
  deleteTask i w = (tt, w).
Proof.
  intros H. unfold deleteTask, mbind, M_bind, getTasks.
  by rewrite bool_decide_eq_true_2 by by apply findIndex_miss.
Qed.

Lemma deleteTask_hit i w k x :
  list_find (λ task, id task = i) (tasks w) = Some (k, x) →
  deleteTask i w = (tt, mkWorld (delete k (tasks w)) (nextId w) (reads w)).
Proof.
  intros H. unfold deleteTask, mbind, M_bind, getTasks.
  destruct (findIndex_hit _ _ _ _ H) as (Hk & Hne & Hx).
  rewrite bool_decide_eq_false_2 by done.
  rewrite Hk. unfold splice1. by rewrite Nat2Z.id.
Qed.

Lemma toggleTaskComplete_miss i w :
  list_find (λ task, id task = i) (tasks w) = None →
  toggleTaskComplete clk i w = (tt, w).
Proof.
  intros H. unfold toggleTaskComplete, mbind, M_bind, getTasks, find.
  by rewrite H.
Qed.

Lemma toggleTaskComplete_hit i w k x :
  list_find (λ task, id task = i) (tasks w) = Some (k, x) →
  toggleTaskComplete clk i w =
    (tt, replaceAt clk w k x (flipCompleted x)).
Proof.
  intros H. unfold toggleTaskComplete, mbind at 1, M_bind at 1, getTasks, find.
  rewrite H. simpl. by apply updateTask_hit.
Qed.

End OperationEquations.

(** Every call takes one of the paths of [Effect]. *)
Lemma step_effect (clk : Clock) (c : Command) (w : World) :
  Effect clk w c (exec (step clk c) w).
Proof.
  unfold exec. destruct c as [t d|i u|i|i| |]; simpl.
  - destruct (decide (trim t = [])) as [H|H].
    + rewrite addTask_blank by done. by constructor.
    + rewrite addTask_fresh by done. by constructor.
  - destruct (list_find (λ task, id task = i) (tasks w)) as [[k x]|] eqn:H.
    + erewrite updateTask_hit by done. by econstructor.
    + rewrite updateTask_miss by done. by constructor.
  - destruct (list_find (λ task, id task = i) (tasks w)) as [[k x]|] eqn:H.
    + erewrite deleteTask_hit by done. by econstructor.
    + rewrite deleteTask_miss by done. by constructor.
  - destruct (list_find (λ task, id task = i) (tasks w)) as [[k x]|] eqn:H.
    + erewrite toggleTaskComplete_hit by done. by econstructor.
    + rewrite toggleTaskComplete_miss by done. by constructor.
  - constructor.
  - constructor.
Qed.

(** The operations return nothing ([undefined]) on every path. *)
Lemma step_total (clk : Clock) (c : Command) (w : World) :
  step clk c w = (tt, exec (step clk c) w).
Proof. unfold exec. by destruct (step clk c w) as [[] w']. Qed.

(* ===================================================================== *)
(** ** Subsequences *)
(* ===================================================================== *)

Lemma sublist_Forall {A} (P : A → Prop) (l1 l2 : list A) :
  l1 `sublist_of` l2 → Forall P l2 → Forall P l1.
Proof.
  intros Hsub. rewrite !Forall_forall. intros H x Hx.
  apply H. by eapply elem_of_sublist.
Qed.

Lemma sublist_StronglySorted {A} (R : relation A) (l1 l2 : list A) :
  l1 `sublist_of` l2 → StronglySorted R l2 → StronglySorted R l1.
Proof.
  induction 1 as [|x l1 l2 Hsub IH|x l1 l2 Hsub IH];
    rewrite ?StronglySorted_cons; [done|..].
  - intros [Hx Hl]. split; [|by apply IH]. by eapply sublist_Forall.
  - intros [_ Hl]. by apply IH.
Qed.

Lemma StronglySorted_lt_NoDup (l : list Z) : StronglySorted Z.lt l → NoDup l.
Proof.
  induction 1 as [|x l _ IH Hx]; constructor; [|done].
  intros Hin. rewrite Forall_forall in Hx. specialize (Hx x Hin). lia.
Qed.

(* ===================================================================== *)
(** ** Preservation of the invariants *)
(* ===================================================================== *)

(** An in-place replacement keeps every id where it was. *)
Lemma replaceAt_ids clk w i k x u :
  list_find (λ task, id task = i) (tasks w) = Some (k, x) →
  id <$> tasks (replaceAt clk w k x u) = id <$> tasks w.
Proof.
  intros (Hk & _)%list_find_Some. simpl.
  rewrite list_fmap_insert. simpl. apply list_insert_id.
  by rewrite list_lookup_fmap, Hk.
Qed.

Lemma logOk_step clk c w log :
  logOk w log →
  logOk (exec (step clk c) w)
    (if isClearAll c then [] else log ++ assigned clk c w).
Proof.
  intros (Hsort & Hlt & Hsub). unfold assigned.
  generalize (step_effect clk c w). generalize (exec (step clk c) w).
  intros w' Heff. unfold logOk. destruct Heff; cbn [isClearAll tasks nextId].
  - rewrite drop_all, app_nil_r. done.
  - rewrite drop_app_length.
    change (id <$> [newTaskOf clk t d w]) with [nextId w]. split_and!.
    + apply StronglySorted_app. split_and!; [|done|repeat constructor].
      intros a b Ha ->%list_elem_of_singleton.
      rewrite Forall_forall in Hlt. by apply Hlt.
    + apply Forall_app. split; [|repeat constructor; simpl; lia].
      eapply Forall_impl; [done|]. simpl. intros; lia.
    + rewrite fmap_app. by apply sublist_app.
  - rewrite app_nil_r. done.
  - rewrite app_nil_r. split_and!; [done..|].
    change (id <$> tasks (replaceAt clk w k x u) `sublist_of` log).
    by erewrite replaceAt_ids.
  - rewrite app_nil_r. done.
  - rewrite app_nil_r. split_and!; [done..|].
    rewrite list_fmap_delete. etrans; [apply sublist_delete|done].
  - rewrite app_nil_r. done.
  - rewrite app_nil_r. split_and!; [done..|].
    change (id <$> tasks (replaceAt clk w k x (flipCompleted x))
              `sublist_of` log).
    by erewrite replaceAt_ids.
  - rewrite app_nil_r. split_and!; [done..|].
    etrans; [|done]. apply fmap_sublist, sublist_filter.
  - split_and!; constructor.
Qed.

Lemma runLog_fst clk cs w log : (runLog clk cs w log).1 = run clk cs w.
Proof. revert w log. induction cs as [|c cs IH]; intros; simpl; auto. Qed.

Lemma logOk_runLog clk cs w log :
  logOk w log → logOk (runLog clk cs w log).1 (runLog clk cs w log).2.
Proof.
  revert w log. induction cs as [|c cs IH]; intros w log H; simpl; [done|].
  by apply IH, logOk_step.
Qed.

Lemma logOk_init : logOk init [].
Proof. split_and!; constructor. Qed.

(** In a reachable state the ids of the collection increase along the
    collection and stay below the counter. *)
Lemma reachable_ids clk w :
  reachable clk w →
  StronglySorted Z.lt (id <$> tasks w) ∧ Forall (λ t, id t < nextId w) (tasks w).
Proof.
  intros [cs ->].
  destruct (logOk_runLog clk cs init [] logOk_init) as (Hs & Hlt & Hsub).
  rewrite runLog_fst in Hlt, Hsub. split.
  - by eapply sublist_StronglySorted.
  - apply (Forall_fmap id (λ i, i < nextId (run clk cs init))).
    by eapply sublist_Forall.
Qed.

Lemma timesOk_later clk (r r' : nat) (l : list Task) :
  (r ≤ r')%nat →
  Forall (λ t, createdAt t ≤ updatedAt t ∧
               ∃ n, (n < r)%nat ∧ updatedAt t = clk n) l →
  Forall (λ t, createdAt t ≤ updatedAt t ∧
               ∃ n, (n < r')%nat ∧ updatedAt t = clk n) l.
Proof.
  intros Hr Hl. eapply Forall_impl; [exact Hl|].
  intros t [? (n & Hn & ?)]. split; [done|]. exists n. split; [lia|done].
Qed.

(** A record replaced in place keeps [createdAt] and gets the reading of
    the call, which is not before the reading it had. *)
Lemma timesOk_replaceAt clk w i k x u :
  monotone clk → timesOk clk w →
  list_find (λ task, id task = i) (tasks w) = Some (k, x) →
  timesOk clk (replaceAt clk w k x u).
Proof.
  intros Hmono Hw (Hk & _)%list_find_Some. unfold timesOk in *. simpl.
  apply Forall_insert.
  - eapply timesOk_later; [|done]. lia.
  - rewrite Forall_forall in Hw.
    destruct (Hw x) as [Hcu (n & Hn & Hu)]; [by eapply list_elem_of_lookup_2|].
    simpl. split.
    + assert (clk n ≤ clk (reads w)) by (apply Hmono; lia). lia.
    + exists (reads w). split; [lia|done].
Qed.

Lemma timesOk_step clk c w :
  monotone clk → timesOk clk w → timesOk clk (exec (step clk c) w).
Proof.
  intros Hmono Hw.
  destruct (step_effect clk c w); try done;
    try (by eapply timesOk_replaceAt); unfold timesOk in *; simpl.
  - apply Forall_app. split.
    + eapply timesOk_later; [|done]. lia.
    + repeat constructor; simpl.
      * apply Hmono. lia.
      * exists (S (reads w)). split; [lia|done].
  - by apply Forall_delete.
  - eapply sublist_Forall; [apply sublist_filter|done].
  - constructor.
Qed.

Lemma timesOk_run clk cs w :
  monotone clk → timesOk clk w → timesOk clk (run clk cs w).
Proof.
  intros Hmono. revert w.
  induction cs as [|c cs IH]; intros w Hw; simpl; [done|].
  by apply IH, timesOk_step.
Qed.

Lemma reachable_times clk w :
  monotone clk → reachable clk w → timesOk clk w.
Proof. intros Hmono [cs ->]. apply timesOk_run; [done|]. constructor. Qed.

(** With pairwise distinct ids, the record at index [k] is the one the
    linear scan for its id finds. *)
Lemma reachable_find clk w k x :
  reachable clk w → tasks w !! k = Some x →
  list_find (λ task, id task = id x) (tasks w) = Some (k, x).
Proof.
  intros [Hs _]%reachable_ids Hk.
  apply StronglySorted_lt_NoDup in Hs.
  apply list_find_Some. split_and!; [done..|].
  intros j y Hj Hlt Hid.
  assert (j = k); [|lia].
  eapply NoDup_lookup; [done|..]; rewrite list_lookup_fmap.
  - by rewrite Hj.
  - rewrite Hk. simpl. by rewrite Hid.
Qed.

Lemma monotone_tick : monotone tick.
Proof. intros m n Hmn. unfold tick. lia. Qed.

Lemma monotone_frozen t : monotone (frozen t).
Proof. intros m n _. done. Qed.

Lemma reachable_run clk cs : reachable clk (run clk cs init).
Proof. by exists cs. Qed.

(** A title stored by [addTask] is non-empty and trimmed. *)
Lemma addTask_title clk t d w :
  Forall (λ x, trimmedNonEmpty (title x)) (tasks w) →
  Forall (λ x, trimmedNonEmpty (title x)) (tasks (exec (addTask clk t d) w)).
Proof.
  intros Hw. destruct (decide (trim t = [])) as [H|H]; unfold exec.
  - by rewrite addTask_blank.
  - rewrite addTask_fresh by done. simpl. apply Forall_app. split; [done|].
    apply Forall_singleton. by apply trim_trimmedNonEmpty.
Qed.

(* ===================================================================== *)
(** ** C1: titles of the collection *)
(* ===================================================================== *)

(** C1. The specification wants every title of the collection, in every
    reachable state, to be non-empty after trimming and free of leading
    and trailing white space. [addTask] sees to it (lemma [addTask_title])
    but [updateTask] stores the title of the partial object as it comes:
    after [addTask("A"); updateTask(1, { title: "  " })] the only task of
    the collection has the title of two spaces, which trims to the empty
    string. *)
Theorem updateTask_blank_title :
  reachable tick blankTitled ∧
  title <$> tasks blankTitled = [js "  "] ∧
  trim (js "  ") = [] ∧
  ¬ Forall (λ x, trimmedNonEmpty (title x)) (tasks blankTitled).
Proof.
  split_and!; [apply reachable_run|done..|].
  intros H. apply Forall_inv in H as [H _]. by apply H.
Qed.

(* ===================================================================== *)
(** ** C2: operations on an absent id *)
(* ===================================================================== *)

(** C2. When no task of the collection carries the id [i],
    [updateTask(i, u)], [deleteTask(i)] and [toggleTaskComplete(i)] each
    return (nothing) and leave the whole world as it was: the collection,
    the id counter, and the clock is not even read. *)
Theorem absent_id_noop clk i u w :
  i ∉ (id <$> tasks w) →
  updateTask clk i u w = (tt, w) ∧
  deleteTask i w = (tt, w) ∧
  toggleTaskComplete clk i w = (tt, w).
Proof.
  intros Hi%list_find_absent. split_and!.
  - by apply updateTask_miss.
  - by apply deleteTask_miss.
  - by apply toggleTaskComplete_miss.
Qed.

Lemma absent_id_noop_witness :
  (7 ∉ (id <$> tasks (oneTask tick))) ∧
  (updateTask tick 7 titleX (oneTask tick) = (tt, oneTask tick) ∧
   deleteTask 7 (oneTask tick) = (tt, oneTask tick) ∧
   toggleTaskComplete tick 7 (oneTask tick) = (tt, oneTask tick)).
Proof.
  assert (H : 7 ∉ (id <$> tasks (oneTask tick))).
  { apply (bool_decide_unpack _). vm_compute. exact I. }
  split; [exact H|]. apply (absent_id_noop tick 7 titleX (oneTask tick) H).
Defined.

(* ===================================================================== *)
(** ** C3: addTask *)
(* ===================================================================== *)

(** C3, as the specification states it, has [createdAt = updatedAt = now]
    for the new task. The source evaluates [new Date()] once for each of
    the two fields, so the two are two readings of the clock: on a clock
    that advances between them ([tick]) [addTask("A")] builds a task with
    [createdAt = 0] and [updatedAt = 1], and no single [now] is both. *)
Lemma addTask_two_readings :
  tasks (oneTask tick) = [mkTask 1 (js "A") [] false 0 1] ∧
  ¬ ∃ now x, last (tasks (oneTask tick)) = Some x ∧
             createdAt x = now ∧ updatedAt x = now.
Proof.
  split; [done|]. intros (now & x & Hx & Hc & Hu).
  vm_compute in Hx. injection Hx as <-. simpl in Hc, Hu. lia.
Qed.

(** C3, amended. [addTask(title, description)] leaves the world unchanged
    when [title] is empty after trimming; otherwise it appends exactly one
    task at the end of the collection, carrying the next allocated id (the
    value of the counter, which then advances by one), the trimmed title,
    [completed = false], and as [createdAt] and [updatedAt] the two
    successive readings of the clock taken while the record is built. *)
Theorem addTask_appends clk t d w :
  if decide (trim t = []) then exec (addTask clk t d) w = w
  else ∃ x,
    tasks (exec (addTask clk t d) w) = tasks w ++ [x] ∧
    nextId (exec (addTask clk t d) w) = nextId w + 1 ∧
    id x = nextId w ∧
    title x = trim t ∧
    completed x = false ∧
    createdAt x = clk (reads w) ∧
    updatedAt x = clk (S (reads w)).
Proof.
  unfold exec. case_decide as H.
  - by rewrite addTask_blank.
  - rewrite addTask_fresh by done. by eexists.
Qed.

(* ===================================================================== *)
(** ** C4: updateTask *)
(* ===================================================================== *)

(** C4, as the specification states it, has [updatedAt] strictly increase
    under a monotonic clock. A clock that does not go back may still give
    the same reading twice (two calls within one millisecond): on the clock
    frozen at 5, [addTask("A")] followed by [updateTask(1, { title: "X" })]
    leaves [updatedAt] at 5. *)
Lemma updateTask_same_reading :
  monotone (frozen 5) ∧
  reachable (frozen 5) (oneTask (frozen 5)) ∧
  eval (getTaskById 1) (oneTask (frozen 5)) =
    Some (mkTask 1 (js "A") [] false 5 5) ∧
  eval (getTaskById 1)
    (exec (updateTask (frozen 5) 1 titleX) (oneTask (frozen 5))) =
    Some (mkTask 1 (js "X") [] false 5 5) ∧
  ¬ (updatedAt (mkTask 1 (js "A") [] false 5 5) <
     updatedAt (mkTask 1 (js "X") [] false 5 5)).
Proof.
  split_and!; [apply monotone_frozen|apply reachable_run|done..|simpl; lia].
Qed.

(** C4, amended. In a reachable state, for the task [x] at index [k] of
    the collection, [updateTask(id x, u)] puts at index [k] a record with
    the same [id] and [createdAt], with every field the partial object
    names taken from it (so [title] is ["X"] for [{ title: "X" }]) and
    every field it does not name kept, and with [updatedAt] set to the
    reading of the clock the call takes; under a monotonic clock that
    reading is not before the old [updatedAt], and it is strictly after
    it when the clock has advanced since every earlier reading. No other
    record, nor the id counter, changes. *)
Theorem updateTask_preserves_identity clk u w k x :
  monotone clk → reachable clk w → tasks w !! k = Some x →
  ∃ y,
    tasks (exec (updateTask clk (id x) u) w) !! k = Some y ∧
    id y = id x ∧
    createdAt y = createdAt x ∧
    title y = default (title x) (u_title u) ∧
    description y = default (description x) (u_description u) ∧
    completed y = default (completed x) (u_completed u) ∧
    updatedAt y = clk (reads w) ∧
    updatedAt x ≤ updatedAt y ∧
    ((∀ n, (n < reads w)%nat → clk n < clk (reads w)) →
     updatedAt x < updatedAt y) ∧
    (∀ j, j ≠ k →
       tasks (exec (updateTask clk (id x) u) w) !! j = tasks w !! j) ∧
    length (tasks (exec (updateTask clk (id x) u) w)) = length (tasks w) ∧
    nextId (exec (updateTask clk (id x) u) w) = nextId w.
Proof.
  intros Hmono Hw Hk.
  pose proof (reachable_find _ _ _ _ Hw Hk) as Hfind.
  pose proof (reachable_times _ _ Hmono Hw) as Htimes.
  unfold timesOk in Htimes. rewrite Forall_forall in Htimes.
  destruct (Htimes x) as [_ (n & Hn & Hu)]; [by eapply list_elem_of_lookup_2|].
  unfold exec. erewrite updateTask_hit by done. simpl.
  exists (merge x u (clk (reads w))). split_and!; try done.
  - apply list_lookup_insert_eq. by eapply lookup_lt_Some.
  - simpl. rewrite Hu. apply Hmono. lia.
  - intros Hadv. simpl. rewrite Hu. by apply Hadv.
  - intros j Hj. by apply list_lookup_insert_ne.
  - apply length_insert.
Qed.

Lemma updateTask_preserves_identity_witness :
  monotone tick ∧ reachable tick (oneTask tick) ∧
  tasks (oneTask tick) !! 0%nat = Some (mkTask 1 (js "A") [] false 0 1) ∧
  ∃ y,
    tasks (exec (updateTask tick 1 titleX) (oneTask tick)) !! 0%nat = Some y ∧
    id y = 1 ∧
    createdAt y = 0 ∧
    title y = js "X" ∧
    description y = [] ∧
    completed y = false ∧
    updatedAt y = 2 ∧
    1 ≤ updatedAt y ∧
    ((∀ n, (n < 2)%nat → tick n < tick 2%nat) → 1 < updatedAt y) ∧
    (∀ j, j ≠ 0%nat →
       tasks (exec (updateTask tick 1 titleX) (oneTask tick)) !! j =
       tasks (oneTask tick) !! j) ∧
    length (tasks (exec (updateTask tick 1 titleX) (oneTask tick))) =
      length (tasks (oneTask tick)) ∧
    nextId (exec (updateTask tick 1 titleX) (oneTask tick)) =
      nextId (oneTask tick).
Proof.
  split_and!; [apply monotone_tick|apply reachable_run|reflexivity|].
  apply (updateTask_preserves_identity tick titleX (oneTask tick) 0
           (mkTask 1 (js "A") [] false 0 1));
    [apply monotone_tick|apply reachable_run|reflexivity].
Defined.

(* ===================================================================== *)
(** ** C10: the description stored by addTask *)
(* ===================================================================== *)

(** C10, as the specification's claim states it, ends with the store
    never preserving surrounding white space in descriptions. That holds
    of the description [addTask] stores, not of the store: [updateTask]
    takes the description of the partial object as it comes, and after
    [addTask("A"); updateTask(1, { description: " e " })] the only task of
    the collection has the description [" e "], which [trim] would
    shorten to ["e"]. *)
Lemma updateTask_keeps_padding :
  reachable tick paddedDescription ∧
  description <$> tasks paddedDescription = [js " e "] ∧
  trim (js " e ") = js "e" ∧
  ¬ Forall (λ x, trim (description x) = description x)
      (tasks paddedDescription).
Proof.
  split_and!; [apply reachable_run|done..|].
  intros H. apply Forall_inv in H. vm_compute in H. discriminate.
Qed.

(** C10, amended. When the title is not blank, the task [addTask(title,
    description)] appends has [description.trim()] as its description (the
    trimmed empty string when the argument is left out), so [addTask]
    never stores a description with leading or trailing white space; in
    particular a description made only of white space is stored as the
    empty string. *)
Theorem addTask_trims_description clk t d w :
  trim t ≠ [] →
  ∃ x,
    last (tasks (exec (addTask clk t d) w)) = Some x ∧
    description x = trim (default [] d) ∧
    trim (description x) = description x ∧
    (Forall (λ c, isWhiteSpace c = true) (default [] d) →
     description x = []).
Proof.
  intros H. unfold exec. rewrite addTask_fresh by done. simpl.
  eexists. split_and!; [apply last_snoc|done|apply trim_idem|].
  intros Hd. simpl. by apply trim_all_white.
Qed.

Lemma addTask_trims_description_witness :
  trim (js " A ") ≠ [] ∧
  ∃ x,
    last (tasks (exec (addTask tick (js " A ") (Some (js "  ")))
                   (oneTask tick))) = Some x ∧
    description x = trim (default [] (Some (js "  "))) ∧
    trim (description x) = description x ∧
    (Forall (λ c, isWhiteSpace c = true) (default [] (Some (js "  "))) →
     description x = []).
Proof.
  assert (H : trim (js " A ") ≠ []) by (vm_compute; discriminate).
  split; [exact H|].
  apply (addTask_trims_description tick (js " A ") (Some (js "  "))
           (oneTask tick) H).
Defined.

(* ===================================================================== *)
(** ** C5: monotonic ids *)
(* ===================================================================== *)

(** The counter never goes down except in [clearAllTasks], which puts it
    back to its initial value. *)
Lemma nextId_step clk c w :
  if isClearAll c then nextId (exec (step clk c) w) = nextId init
  else nextId w ≤ nextId (exec (step clk c) w).
Proof. destruct (step_effect clk c w); simpl; lia. Qed.

(** C5. Along any run from the freshly loaded module, the ids handed out
    since the last [clearAllTasks], in the order the tasks were added, are
    strictly increasing (a task added before another has the smaller id);
    the counter, which is the next id to be handed out, is strictly above
    all of them; the ids of the collection are among them, in collection
    order; and only [clearAllTasks] resets the counter: every other call
    leaves it where it was or moves it up. *)
Theorem ids_monotonic clk cs :
  StronglySorted Z.lt (runLog clk cs init []).2 ∧
  Forall (λ i, i < nextId (run clk cs init)) (runLog clk cs init []).2 ∧
  id <$> tasks (run clk cs init) `sublist_of` (runLog clk cs init []).2 ∧
  (∀ c w,
     if isClearAll c then nextId (exec (step clk c) w) = nextId init
     else nextId w ≤ nextId (exec (step clk c) w)).
Proof.
  destruct (logOk_runLog clk cs init [] logOk_init) as (Hs & Hlt & Hsub).
  rewrite runLog_fst in Hlt, Hsub.
  split_and!; [done..|]. intros c w. apply nextId_step.
Qed.

(* ===================================================================== *)
(** ** C6: unique ids *)
(* ===================================================================== *)

(** C6. In every reachable state the ids of the tasks of the collection
    are pairwise distinct. *)
Theorem ids_unique clk w :
  reachable clk w → NoDup (id <$> tasks w).
Proof. intros [Hs _]%reachable_ids. by apply StronglySorted_lt_NoDup. Qed.

Lemma ids_unique_witness :
  reachable tick (twoTasks tick) ∧ NoDup (id <$> tasks (twoTasks tick)).
Proof.
  split; [apply reachable_run|].
  apply (ids_unique tick (twoTasks tick)), reachable_run.
Defined.

(* ===================================================================== *)
(** ** C7: updatedAt is not before createdAt *)
(* ===================================================================== *)

(** C7. Under a monotonic clock, in every reachable state every task of
    the collection has [updatedAt >= createdAt]: right after [addTask]
    built it and after any later [updateTask] or [toggleTaskComplete]. *)
Theorem updatedAt_ge_createdAt clk w :
  monotone clk → reachable clk w →
  Forall (λ x, createdAt x ≤ updatedAt x) (tasks w).
Proof.
  intros Hmono Hw. eapply Forall_impl; [by apply reachable_times|].
  simpl. by intros x [? _].
Qed.

Lemma updatedAt_ge_createdAt_witness :
  monotone tick ∧ reachable tick (twoTasks tick) ∧
  Forall (λ x, createdAt x ≤ updatedAt x) (tasks (twoTasks tick)).
Proof.
  split_and!; [apply monotone_tick|apply reachable_run|].
  apply (updatedAt_ge_createdAt tick (twoTasks tick));
    [apply monotone_tick|apply reachable_run].
Defined.

(* ===================================================================== *)
(** ** C8: insertion order *)
(* ===================================================================== *)

(** [deleteTask] removes the first record carrying the id, and only it. *)
Lemma deleteTask_removes_one i w :
  ((i ∉ (id <$> tasks w)) ∧ exec (deleteTask i) w = w) ∨
  (∃ l1 x l2,
     tasks w = l1 ++ x :: l2 ∧ id x = i ∧ (i ∉ (id <$> l1)) ∧
     tasks (exec (deleteTask i) w) = l1 ++ l2).
Proof.
  unfold exec.
  destruct (list_find (λ task, id task = i) (tasks w)) as [[k x]|] eqn:H.
  - right. erewrite deleteTask_hit by done. simpl.
    apply list_find_Some in H as (Hk & Hid & Hbefore).
    exists (take k (tasks w)), x, (drop (S k) (tasks w)). split_and!.
    + by rewrite take_drop_middle.
    + done.
    + intros (y & Hy & Hin)%list_elem_of_fmap.
      apply list_elem_of_lookup in Hin as [j Hj].
      pose proof (lookup_lt_Some _ _ _ Hj) as Hlen.
      rewrite length_take in Hlen.
      rewrite lookup_take_lt in Hj by lia.
      apply (Hbefore j y); [done|lia|done].
    + apply delete_take_drop.
  - left. rewrite deleteTask_miss by done. split; [|done].
    apply list_find_None in H. rewrite Forall_forall in H.
    intros (y & Hy & Hin)%list_elem_of_fmap. by apply (H y).
Qed.

(** Whatever the call, the ids of the collection after it are a
    subsequence of the ids before it, followed by the ids the call handed
    out: nothing is ever moved. *)
Lemma step_keeps_order clk c w :
  ∃ l, l `sublist_of` (id <$> tasks w) ∧
       id <$> tasks (exec (step clk c) w) = l ++ assigned clk c w.
Proof.
  unfold assigned.
  generalize (step_effect clk c w). generalize (exec (step clk c) w).
  intros w' Heff. destruct Heff; cbn [tasks].
  - exists (id <$> tasks w). by rewrite drop_all, app_nil_r.
  - exists (id <$> tasks w). by rewrite drop_app_length, fmap_app.
  - exists (id <$> tasks w). by rewrite app_nil_r.
  - exists (id <$> tasks w). rewrite app_nil_r. split; [done|].
    by eapply replaceAt_ids.
  - exists (id <$> tasks w). by rewrite app_nil_r.
  - exists (id <$> delete k (tasks w)). rewrite app_nil_r. split; [|done].
    apply fmap_sublist, sublist_delete.
  - exists (id <$> tasks w). by rewrite app_nil_r.
  - exists (id <$> tasks w). rewrite app_nil_r. split; [done|].
    by eapply replaceAt_ids.
  - eexists. rewrite app_nil_r. split; [|done].
    apply fmap_sublist, sublist_filter.
  - exists []. split; [apply sublist_nil_l|done].
Qed.

(** C8. The collection keeps insertion order. [addTask] with a title
    that is not blank appends exactly the new record at the end of the
    collection, and with a blank title leaves the collection as it was;
    [deleteTask] either finds no record with the id and changes nothing,
    or removes the single matched record and leaves the records before and
    after it as they were; after [clearCompletedTasks] the collection is
    the subsequence of its pending tasks, with no completed task left and
    every pending one kept; and for every operation the ids of the
    collection afterwards are a subsequence of the ids before, followed by
    the id of the task the call added, which is the old value of the
    counter for an [addTask] with a title that is not blank and nothing
    for every other call. *)
Theorem insertion_order_preserved clk :
  (∀ t d w,
     tasks (exec (addTask clk t d) w) =
       if decide (trim t = []) then tasks w
       else tasks w ++ [newTaskOf clk t d w]) ∧
  (∀ i w,
     ((i ∉ (id <$> tasks w)) ∧ exec (deleteTask i) w = w) ∨
     (∃ l1 x l2,
        tasks w = l1 ++ x :: l2 ∧ id x = i ∧ (i ∉ (id <$> l1)) ∧
        tasks (exec (deleteTask i) w) = l1 ++ l2)) ∧
  (∀ w,
     tasks (exec clearCompletedTasks w) `sublist_of` tasks w ∧
     tasks (exec clearCompletedTasks w) = pendingTasks w ∧
     ∀ x, x ∈ tasks (exec clearCompletedTasks w) ↔
          x ∈ tasks w ∧ completed x = false) ∧
  (∀ c w, ∃ l,
     l `sublist_of` (id <$> tasks w) ∧
     id <$> tasks (exec (step clk c) w) = l ++ assigned clk c w ∧
     (length (assigned clk c w) ≤ 1)%nat) ∧
  (∀ c w,
     assigned clk c w =
       match c with
       | CAddTask t _ => if decide (trim t = []) then [] else [nextId w]
       | _ => []
       end).
Proof.
  split_and!.
  - intros t d w. unfold exec. destruct (decide (trim t = [])) as [H|H].
    + by rewrite addTask_blank.
    + by rewrite addTask_fresh.
  - apply deleteTask_removes_one.
  - intros w. simpl. split_and!; [apply sublist_filter|done|].
    intros x. rewrite list_elem_of_filter, negb_true_iff. tauto.
  - intros c w. destruct (step_keeps_order clk c w) as (l & Hl & Heq).
    exists l. split_and!; [done..|].
    unfold assigned. destruct (step_effect clk c w); cbn [tasks];
      rewrite ?drop_all, ?drop_app_length; simpl; lia.
  - intros c w. destruct c as [t d|i u|i|i| |]; try done.
    unfold assigned, exec. simpl. destruct (decide (trim t = [])) as [H|H].
    + rewrite addTask_blank by done. by rewrite drop_all.
    + rewrite addTask_fresh by done. simpl. by rewrite drop_app_length.
Qed.

(* ===================================================================== *)
(** ** C9: the filter partition *)
(* ===================================================================== *)

(** C9. In any state, [pendingTasks] and [completedTasks] are
    subsequences of the collection (so each is in collection order), no
    task is in both, a task is in the collection exactly when it is in one
    of the two, and the two together are a rearrangement of the
    collection. The [filteredTasks] view gives the collection itself for
    ['all'] (also when the prop is left out) and the two subsequences for
    ['pending'] and ['completed']. *)
Theorem filter_partition w :
  pendingTasks w `sublist_of` tasks w ∧
  completedTasks w `sublist_of` tasks w ∧
  (∀ x, x ∈ pendingTasks w → x ∉ completedTasks w) ∧
  (∀ x, x ∈ tasks w ↔ x ∈ pendingTasks w ∨ x ∈ completedTasks w) ∧
  pendingTasks w ++ completedTasks w ≡ₚ tasks w ∧
  filteredTasks (tasks w) (Some FilterAll) = tasks w ∧
  filteredTasks (tasks w) None = tasks w ∧
  filteredTasks (tasks w) (Some FilterPending) = pendingTasks w ∧
  filteredTasks (tasks w) (Some FilterCompleted) = completedTasks w ∧
  (∀ m, App_filteredTasks m w = filteredTasks (tasks w) (Some m)).
Proof.
  unfold pendingTasks, completedTasks. split_and!; try done.
  - apply sublist_filter.
  - apply sublist_filter.
  - intros x. rewrite !list_elem_of_filter, negb_true_iff.
    intros [H1 _] [H2 _]. congruence.
  - intros x. rewrite !list_elem_of_filter, negb_true_iff.
    destruct (completed x); intuition congruence.
  - assert (E : filter (λ task, negb (completed task) = true) (tasks w) =
                filter (λ task, ¬ completed task = true) (tasks w)).
    { apply list_filter_iff. intros x. rewrite negb_true_iff.
      destruct (completed x); intuition congruence. }
    rewrite E, (comm (++)). apply filter_app_complement.
Qed.

(* ===================================================================== *)
(** ** The scenarios of the specification, run on the model *)
(* ===================================================================== *)

(** Scenario A: [addTask("Buy milk")] on an empty store. *)
Example scenario_A :
  let w := run tick [CAddTask (js "Buy milk") None] init in
  (title <$> tasks w, completed <$> tasks w) = ([js "Buy milk"], [false]) ∧
  totalTasks w = 1 ∧
  length (pendingTasks w) = 1%nat ∧
  length (completedTasks w) = 0%nat.
Proof. by vm_compute. Qed.

(** Scenario B: a title of white space only. *)
Example scenario_B : tasks (run tick [CAddTask (js "  ") None] init) = [].
Proof. by vm_compute. Qed.

(** Scenario C: two tasks, the first one toggled. *)
Example scenario_C :
  let w := run tick [CAddTask (js "A") None; CAddTask (js "B") None;
                     CToggleTaskComplete 1] init in
  title <$> completedTasks w = [js "A"] ∧ title <$> pendingTasks w = [js "B"].
Proof. by vm_compute. Qed.

(** Scenario D: [clearCompletedTasks] with nothing completed. *)
Example scenario_D :
  tasks (exec clearCompletedTasks (twoTasks tick)) = tasks (twoTasks tick).
Proof. by vm_compute. Qed.

(** Scenario E: the only task is completed, then cleared. *)
Example scenario_E :
  tasks (run tick [CAddTask (js "A") None; CToggleTaskComplete 1;
                   CClearCompletedTasks] init) = [].
Proof. by vm_compute. Qed.

(** Scenario F: the counter starts again after [clearAllTasks]. *)
Example scenario_F :
  id <$> tasks (run tick [CAddTask (js "A") None; CClearAllTasks;
                          CAddTask (js "B") None] init) =
  id <$> tasks (oneTask tick).
Proof. by vm_compute. Qed.

(* ===================================================================== *)
(** ** Looking a task up after an operation *)
(* ===================================================================== *)

Section Find.

Context (P : Task → Prop) {Pdec : ∀ x, Decision (P x)}.

Lemma find_cons (a : Task) (l : list Task) :
  find P (a :: l) = if decide (P a) then Some a else find P l.
Proof.
  unfold find. simpl. case_decide; [done|].
  by destruct (list_find P l) as [[k x]|].
Qed.

Lemma find_hit (l : list Task) (x : Task) :
  find P l = Some x → ∃ k, list_find P l = Some (k, x).
Proof.
  unfold find. destruct (list_find P l) as [[k y]|]; [|done].
  intros [= ->]. by exists k.
Qed.

Lemma find_miss (l : list Task) :
  find P l = None ↔ Forall (λ x, ¬ P x) l.
Proof.
  unfold find. split; intros H.
  - apply (proj1 (list_find_None P l)).
    by destruct (list_find P l) as [[k y]|].
  - by rewrite (proj2 (list_find_None P l) H).
Qed.

Lemma find_snoc (l : list Task) (y : Task) :
  find P (l ++ [y]) =
    match find P l with
    | Some x => Some x
    | None => if decide (P y) then Some y else None
    end.
Proof.
  induction l as [|a l IH]; simpl.
  - by rewrite find_cons.
  - rewrite !find_cons. destruct (decide (P a)); [done|apply IH].
Qed.

Lemma list_find_insert_same (l : list Task) (k : nat) (x y : Task) :
  list_find P l = Some (k, x) → P y →
  list_find P (<[k:=y]> l) = Some (k, y).
Proof.
  intros (Hk & _ & Hbefore)%list_find_Some Hy.
  apply (proj2 (list_find_Some P _ k y)).
  split_and!; [|done|].
  - apply list_lookup_insert_eq. by eapply lookup_lt_Some.
  - intros j z Hj Hlt. rewrite list_lookup_insert_ne in Hj by lia.
    by eapply Hbefore.
Qed.

Lemma find_insert_same (l : list Task) (k : nat) (x y : Task) :
  list_find P l = Some (k, x) → P y → find P (<[k:=y]> l) = Some y.
Proof.
  intros H Hy. unfold find. by erewrite list_find_insert_same.
Qed.

Lemma find_insert_other (l : list Task) (k : nat) (x y : Task) :
  l !! k = Some x → ¬ P x → ¬ P y → find P (<[k:=y]> l) = find P l.
Proof.
  revert k. induction l as [|a l IH]; intros [|k] Hk Hx Hy; simplify_eq/=.
  - rewrite !find_cons. by rewrite !decide_False.
  - rewrite !find_cons. destruct (decide (P a)); [done|]. by eapply IH.
Qed.

Lemma find_delete_other (l : list Task) (k : nat) (x : Task) :
  l !! k = Some x → ¬ P x → find P (delete k l) = find P l.
Proof.
  revert k. induction l as [|a l IH]; intros [|k] Hk Hx; simplify_eq/=.
  - rewrite find_cons. by rewrite decide_False.
  - rewrite !find_cons. destruct (decide (P a)); [done|]. by eapply IH.
Qed.

End Find.

Lemma NoDup_delete_not_elem {A} (l : list A) (k : nat) (a : A) :
  NoDup l → l !! k = Some a → a ∉ delete k l.
Proof.
  intros Hnd Hk. rewrite delete_take_drop.
  rewrite <- (take_drop_middle l k a Hk) in Hnd.
  apply NoDup_app in Hnd as (_ & Hdisj & Hcons).
  apply NoDup_cons in Hcons as [Hnotin _].
  intros [Hin|Hin]%elem_of_app; [|done].
  apply (Hdisj a Hin). by left.
Qed.

Lemma getTaskById_unfold i w :
  getTaskById i w = (find (λ task, id task = i) (tasks w), w).
Proof. done. Qed.

Lemma find_absent (i : Z) (l : list Task) :
  i ∉ (id <$> l) ↔ find (λ task, id task = i) l = None.
Proof.
  rewrite find_miss, Forall_forall. split.
  - intros Hi x Hx Hid. apply Hi, list_elem_of_fmap. by exists x.
  - intros H (x & Hid & Hx)%list_elem_of_fmap. by apply (H x).
Qed.

(** X1. [getTaskById(i)] never changes the store; it returns a task of
    the collection carrying the id [i] when there is one, and [undefined]
    exactly when no task of the collection carries it. *)
Theorem getTaskById_spec i w :
  exec (getTaskById i) w = w ∧
  match eval (getTaskById i) w with
  | Some x => x ∈ tasks w ∧ id x = i
  | None => i ∉ (id <$> tasks w)
  end.
Proof.
  split; [done|]. unfold eval. rewrite getTaskById_unfold. simpl.
  destruct (find _ (tasks w)) as [x|] eqn:H.
  - apply find_hit in H as [k (Hk & Hid & _)%list_find_Some].
    split; [by eapply list_elem_of_lookup_2|done].
  - by apply find_absent.
Qed.

(** X2. In a reachable state, after an [addTask] with a non-blank title
    the id the counter held finds the new task, and every other id finds
    what it found before. *)
Theorem getTaskById_after_addTask clk t d w j :
  reachable clk w → trim t ≠ [] →
  eval (getTaskById j) (exec (addTask clk t d) w) =
    if decide (j = nextId w) then Some (newTaskOf clk t d w)
    else eval (getTaskById j) w.
Proof.
  intros [_ Hlt]%reachable_ids Ht. unfold exec, eval.
  rewrite addTask_fresh, !getTaskById_unfold by done. simpl.
  rewrite find_snoc. simpl. destruct (decide (j = nextId w)) as [->|Hj].
  - rewrite (proj1 (find_absent (nextId w) (tasks w))).
    + by rewrite decide_True.
    + intros (x & Hid & Hx)%list_elem_of_fmap.
      rewrite Forall_forall in Hlt. specialize (Hlt x Hx).
      simpl in Hlt. lia.
  - destruct (find _ (tasks w)); [done|]. by rewrite decide_False.
Qed.

Lemma getTaskById_after_addTask_witness :
  reachable tick (oneTask tick) ∧ trim (js "B") ≠ [] ∧
  eval (getTaskById 2) (exec (addTask tick (js "B") None) (oneTask tick)) =
    if decide (2 = nextId (oneTask tick))
    then Some (newTaskOf tick (js "B") None (oneTask tick))
    else eval (getTaskById 2) (oneTask tick).
Proof.
  assert (H : trim (js "B") ≠ []) by (vm_compute; discriminate).
  split_and!; [apply reachable_run|exact H|].
  apply (getTaskById_after_addTask tick (js "B") None (oneTask tick) 2
           (reachable_run tick _) H).
Defined.

(** X3. In a reachable state, after [deleteTask(i)] the id [i] finds
    nothing, and every other id finds what it found before. *)
Theorem getTaskById_after_deleteTask clk i j w :
  reachable clk w →
  eval (getTaskById j) (exec (deleteTask i) w) =
    if decide (j = i) then None else eval (getTaskById j) w.
Proof.
  intros [Hs _]%reachable_ids. apply StronglySorted_lt_NoDup in Hs.
  unfold exec, eval. rewrite !getTaskById_unfold.
  destruct (list_find (λ task, id task = i) (tasks w)) as [[k x]|] eqn:H.
  - erewrite deleteTask_hit by done. simpl.
    apply list_find_Some in H as (Hk & Hid & _). case_decide as Hj.
    + subst j. apply find_absent. rewrite list_fmap_delete.
      rewrite <- Hid. apply NoDup_delete_not_elem; [done|].
      by rewrite list_lookup_fmap, Hk.
    + eapply find_delete_other; [done|]. congruence.
  - rewrite deleteTask_miss by done. simpl. case_decide as Hj; [|done].
    subst j. unfold find. by rewrite H.
Qed.

Lemma getTaskById_after_deleteTask_witness :
  reachable tick (twoTasks tick) ∧
  eval (getTaskById 1) (exec (deleteTask 1) (twoTasks tick)) =
    if decide (1 = 1) then None else eval (getTaskById 1) (twoTasks tick).
Proof.
  split; [apply reachable_run|].
  apply (getTaskById_after_deleteTask tick 1 1 (twoTasks tick)
           (reachable_run tick _)).
Defined.

(** X4. In a reachable state, deleting the same id twice in a row gives
    the state one deletion gives. *)
Theorem deleteTask_idempotent clk i w :
  reachable clk w →
  exec (deleteTask i) (exec (deleteTask i) w) = exec (deleteTask i) w.
Proof.
  intros [Hs _]%reachable_ids. apply StronglySorted_lt_NoDup in Hs.
  unfold exec.
  destruct (list_find (λ task, id task = i) (tasks w)) as [[k x]|] eqn:H.
  - erewrite (deleteTask_hit i w) by done. simpl.
    rewrite deleteTask_miss; [done|]. simpl.
    apply list_find_absent. apply list_find_Some in H as (Hk & Hid & _).
    rewrite list_fmap_delete, <- Hid.
    apply NoDup_delete_not_elem; [done|]. by rewrite list_lookup_fmap, Hk.
  - rewrite (deleteTask_miss i w) by done. simpl.
    by rewrite deleteTask_miss.
Qed.

Lemma deleteTask_idempotent_witness :
  reachable tick (twoTasks tick) ∧
  exec (deleteTask 1) (exec (deleteTask 1) (twoTasks tick)) =
    exec (deleteTask 1) (twoTasks tick).
Proof.
  split; [apply reachable_run|].
  apply (deleteTask_idempotent tick 1 (twoTasks tick) (reachable_run tick _)).
Defined.

(** X5. When [getTaskById(i)] finds the task [x], after
    [updateTask(i, u)] it finds [x] merged with [u] and stamped with the
    reading of the call, and every other id finds what it found before. *)
Theorem getTaskById_after_updateTask clk i j u w x :
  eval (getTaskById i) w = Some x →
  eval (getTaskById j) (exec (updateTask clk i u) w) =
    if decide (j = i) then Some (merge x u (clk (reads w)))
    else eval (getTaskById j) w.
Proof.
  unfold exec, eval. rewrite !getTaskById_unfold. simpl.
  intros [k H]%find_hit. erewrite updateTask_hit by done. simpl.
  case_decide as Hj.
  - subst j. eapply find_insert_same; [done|].
    simpl. by apply list_find_Some in H as (_ & ? & _).
  - apply list_find_Some in H as (Hk & Hid & _).
    eapply find_insert_other; [done|congruence|simpl; congruence].
Qed.

Lemma getTaskById_after_updateTask_witness :
  eval (getTaskById 1) (twoTasks tick) = Some (mkTask 1 (js "A") [] false 0 1) ∧
  eval (getTaskById 2) (exec (updateTask tick 1 titleX) (twoTasks tick)) =
    if decide (2 = 1)
    then Some (merge (mkTask 1 (js "A") [] false 0 1) titleX
                 (tick (reads (twoTasks tick))))
    else eval (getTaskById 2) (twoTasks tick).
Proof.
  assert (H : eval (getTaskById 1) (twoTasks tick) =
              Some (mkTask 1 (js "A") [] false 0 1)) by reflexivity.
  split; [exact H|].
  apply (getTaskById_after_updateTask tick 1 2 titleX (twoTasks tick) _ H).
Defined.

(* ===================================================================== *)
(** ** Toggling, counting and clearing *)
(* ===================================================================== *)

Lemma merge_flip_twice x now0 now1 :
  merge (merge x (flipCompleted x) now0)
    (flipCompleted (merge x (flipCompleted x) now0)) now1 = touch x now1.
Proof. destruct x as [? ? ? c ? ?]. unfold touch. simpl. by destruct c. Qed.

(** X6. In a reachable state, toggling the task at index [k] twice in a
    row gives it back its [completed] flag: the record ends as it was
    except for [updatedAt], which is the reading of the second call, and
    nothing else in the store changes. *)
Theorem toggleTaskComplete_twice clk w k x :
  reachable clk w → tasks w !! k = Some x →
  exec (toggleTaskComplete clk (id x))
    (exec (toggleTaskComplete clk (id x)) w) =
  mkWorld (<[k := touch x (clk (S (reads w)))]> (tasks w)) (nextId w)
    (S (S (reads w))).
Proof.
  intros Hw Hk. pose proof (reachable_find _ _ _ _ Hw Hk) as Hfind.
  unfold exec. erewrite (toggleTaskComplete_hit clk (id x) w) by done. simpl.
  erewrite toggleTaskComplete_hit.
  2:{ simpl. eapply list_find_insert_same; [done|]. done. }
  unfold replaceAt. simpl.
  by rewrite list_insert_insert_eq, merge_flip_twice.
Qed.

Lemma toggleTaskComplete_twice_witness :
  reachable tick (oneTask tick) ∧
  tasks (oneTask tick) !! 0%nat = Some (mkTask 1 (js "A") [] false 0 1) ∧
  exec (toggleTaskComplete tick 1) (exec (toggleTaskComplete tick 1)
                                      (oneTask tick)) =
  mkWorld (<[0%nat := touch (mkTask 1 (js "A") [] false 0 1)
                        (tick (S (reads (oneTask tick))))]>
             (tasks (oneTask tick)))
    (nextId (oneTask tick)) (S (S (reads (oneTask tick)))).
Proof.
  split_and!; [apply reachable_run|reflexivity|].
  apply (toggleTaskComplete_twice tick (oneTask tick) 0
           (mkTask 1 (js "A") [] false 0 1) (reachable_run tick _)).
  reflexivity.
Defined.

Lemma pending_filter_alt (l : list Task) :
  filter (λ task, negb (completed task) = true) l =
  filter (λ task, ¬ completed task = true) l.
Proof.
  apply list_filter_iff. intros x. rewrite negb_true_iff.
  destruct (completed x); intuition congruence.
Qed.

(** X7. The three figures of the statistics panel agree in every state:
    [totalTasks] is the number of pending tasks plus the number of
    completed tasks. *)
Theorem totalTasks_split w :
  totalTasks w =
  Z.of_nat (length (pendingTasks w)) + Z.of_nat (length (completedTasks w)).
Proof.
  unfold totalTasks, pendingTasks, completedTasks.
  rewrite pending_filter_alt.
  rewrite <- (filter_app_complement (λ task, completed task = true) (tasks w))
    at 1.
  rewrite length_app. lia.
Qed.

Lemma filter_completed_pending (l : list Task) :
  filter (λ task, completed task = true)
    (filter (λ task, negb (completed task) = true) l) = [].
Proof.
  induction l as [|a l IH]; [done|].
  destruct a as [i t d [] c u]; repeat (rewrite filter_cons; simpl); done.
Qed.

Lemma filter_pending_pending (l : list Task) :
  filter (λ task, negb (completed task) = true)
    (filter (λ task, negb (completed task) = true) l) =
  filter (λ task, negb (completed task) = true) l.
Proof.
  induction l as [|a l IH]; [done|].
  destruct a as [i t d [] c u]; repeat (rewrite filter_cons; simpl);
    [done|by rewrite IH].
Qed.

Lemma filter_pending_all (l : list Task) :
  filter (λ task, negb (completed task) = true) l = l ↔
  filter (λ task, completed task = true) l = [].
Proof.
  induction l as [|a l IH]; [done|].
  destruct a as [i t d [] c u]; rewrite !filter_cons; simpl.
  - split; [|done]. intros H.
    pose proof (length_filter (λ task, negb (completed task) = true) l)
      as Hlen.
    rewrite H in Hlen. simpl in Hlen. lia.
  - rewrite <- IH. split; [by intros [= ->]|by intros ->].
Qed.

(** X8. After [clearCompletedTasks] no completed task is left, the
    pending tasks are the ones there were, and a second call changes
    nothing; the call leaves the store as it was exactly when there was no
    completed task, and otherwise the collection shrinks by the number of
    completed tasks. The id counter is never touched. *)
Theorem clearCompletedTasks_spec w :
  completedTasks (exec clearCompletedTasks w) = [] ∧
  pendingTasks (exec clearCompletedTasks w) = pendingTasks w ∧
  exec clearCompletedTasks (exec clearCompletedTasks w) =
    exec clearCompletedTasks w ∧
  (exec clearCompletedTasks w = w ↔ completedTasks w = []) ∧
  totalTasks (exec clearCompletedTasks w) =
    totalTasks w - Z.of_nat (length (completedTasks w)) ∧
  nextId (exec clearCompletedTasks w) = nextId w.
Proof.
  split_and!.
  - apply filter_completed_pending.
  - apply filter_pending_pending.
  - unfold exec. simpl. by rewrite filter_pending_pending.
  - unfold completedTasks. rewrite <- filter_pending_all.
    unfold exec. simpl. destruct w as [l n r]. simpl.
    split; [by intros [= ->]|by intros ->].
  - rewrite (totalTasks_split w). unfold exec, totalTasks. simpl.
    fold (pendingTasks w). lia.
  - done.
Qed.

(* ===================================================================== *)
(** ** Starting again after clearAllTasks *)
(* ===================================================================== *)

Lemma step_shift clk r c w :
  exec (step clk c) (shiftReads r w) =
  shiftReads r (exec (step (shiftClock r clk) c) w).
Proof.
  unfold exec. destruct c as [t d|i u|i|i| |]; simpl.
  - destruct (decide (trim t = [])) as [H|H].
    + by rewrite !addTask_blank.
    + rewrite !addTask_fresh by done. unfold shiftReads, newTaskOf,
        shiftClock. simpl. by rewrite !Nat.add_succ_r.
  - destruct (list_find (λ task, id task = i) (tasks w)) as [[k x]|] eqn:H.
    + erewrite !updateTask_hit by done. unfold shiftReads, replaceAt,
        shiftClock. simpl. by rewrite !Nat.add_succ_r.
    + by rewrite !updateTask_miss.
  - destruct (list_find (λ task, id task = i) (tasks w)) as [[k x]|] eqn:H.
    + by erewrite !deleteTask_hit.
    + by rewrite !deleteTask_miss.
  - destruct (list_find (λ task, id task = i) (tasks w)) as [[k x]|] eqn:H.
    + erewrite !toggleTaskComplete_hit by done. unfold shiftReads, replaceAt,
        shiftClock. simpl. by rewrite !Nat.add_succ_r.
    + by rewrite !toggleTaskComplete_miss.
  - done.
  - done.
Qed.

Lemma run_shift clk r cs w :
  run clk cs (shiftReads r w) = shiftReads r (run (shiftClock r clk) cs w).
Proof.
  revert w. induction cs as [|c cs IH]; intros w; simpl; [done|].
  by rewrite step_shift, IH.
Qed.

(** X9. After [clearAllTasks] the store behaves as a freshly loaded one:
    whatever calls follow, the collection and the id counter are those
    the same calls produce from the initial state (with the clock read
    from where it stands). In particular ids start again from 1. *)
Theorem clearAllTasks_restarts clk cs w :
  run clk (CClearAllTasks :: cs) w =
  shiftReads (reads w) (run (shiftClock (reads w) clk) cs init).
Proof.
  simpl. rewrite <- run_shift. f_equal.
  unfold exec, shiftReads. simpl. by rewrite Nat.add_0_r.
Qed.

(* ===================================================================== *)
(** ** The ids handed out are 1, 2, 3, ... *)
(* ===================================================================== *)

Lemma countOk_step clk c w log :
  countOk w log →
  countOk (exec (step clk c) w)
    (if isClearAll c then [] else log ++ assigned clk c w).
Proof.
  intros [Hlog Hnext]. unfold assigned.
  generalize (step_effect clk c w). generalize (exec (step clk c) w).
  intros w' Heff. unfold countOk.
  destruct Heff; cbn [isClearAll tasks nextId];
    rewrite ?drop_all, ?app_nil_r; try done.
  rewrite drop_app_length.
  change (id <$> [newTaskOf clk t d w]) with [nextId w].
  rewrite length_app. simpl. rewrite Nat.add_1_r. split; [|lia].
  rewrite seqZ_S. rewrite <- Hlog. by rewrite Hnext.
Qed.

Lemma countOk_runLog clk cs w log :
  countOk w log → countOk (runLog clk cs w log).1 (runLog clk cs w log).2.
Proof.
  revert w log. induction cs as [|c cs IH]; intros w log H; simpl; [done|].
  by apply IH, countOk_step.
Qed.

Lemma countOk_init : countOk init [].
Proof. by split. Qed.

(** X10. Along any run from the freshly loaded module, the ids handed
    out since the last [clearAllTasks] are exactly 1, 2, ..., n in that
    order, and the counter stands at n + 1: the counter counts the tasks
    added since the last reset, whatever was deleted in between. *)
Theorem ids_consecutive clk cs :
  (runLog clk cs init []).2 = seqZ 1 (nextId (run clk cs init) - 1) ∧
  nextId (run clk cs init) =
    1 + Z.of_nat (length (runLog clk cs init []).2).
Proof.
  destruct (countOk_runLog clk cs init [] countOk_init) as [Hlog Hnext].
  rewrite runLog_fst in Hnext. split; [|done].
  rewrite Hnext. by replace (1 + _ - 1) with
    (Z.of_nat (length (runLog clk cs init []).2)) by lia.
Qed.

(** X11. In a reachable state every id of the collection is at least 1,
    and the collection holds at most [nextId - 1] tasks. *)
Theorem collection_within_counter clk w :
  reachable clk w →
  Forall (λ x, 1 ≤ id x) (tasks w) ∧ totalTasks w ≤ nextId w - 1.
Proof.
  intros [cs ->].
  destruct (countOk_runLog clk cs init [] countOk_init) as [Hlog Hnext].
  destruct (logOk_runLog clk cs init [] logOk_init) as (_ & _ & Hsub).
  rewrite runLog_fst in Hnext, Hsub. split.
  - apply (Forall_fmap id (λ i, 1 ≤ i)).
    eapply sublist_Forall; [done|]. rewrite Hlog.
    apply Forall_seqZ. intros; lia.
  - apply sublist_length in Hsub. rewrite length_fmap in Hsub.
    unfold totalTasks. lia.
Qed.

Lemma collection_within_counter_witness :
  reachable tick (twoTasks tick) ∧
  (Forall (λ x, 1 ≤ id x) (tasks (twoTasks tick)) ∧
   totalTasks (twoTasks tick) ≤ nextId (twoTasks tick) - 1).
Proof.
  split; [apply reachable_run|].
  apply (collection_within_counter tick (twoTasks tick)
           (reachable_run tick _)).
Defined.

(* ===================================================================== *)
(** ** Blank titles *)
(* ===================================================================== *)




(* ===================================================================== *)
(** ** Creation stamps *)
(* ===================================================================== *)

Lemma createdOk_later clk (r r' : nat) (l : list Task) :
  (r ≤ r')%nat →
  Forall (λ t, ∃ n, (n < r)%nat ∧ createdAt t = clk n) l →
  Forall (λ t, ∃ n, (n < r')%nat ∧ createdAt t = clk n) l.
Proof.
  intros Hr Hl. eapply Forall_impl; [exact Hl|].
  intros t (n & Hn & ?). exists n. split; [lia|done].
Qed.

Lemma createdOk_replaceAt clk w i k x u :
  createdOk clk w →
  list_find (λ task, id task = i) (tasks w) = Some (k, x) →
  createdOk clk (replaceAt clk w k x u).
Proof.
  intros [Hs Hr] (Hk & _)%list_find_Some. split; simpl.
  - rewrite list_fmap_insert. simpl. rewrite list_insert_id; [done|].
    by rewrite list_lookup_fmap, Hk.
  - apply Forall_insert.
    + eapply createdOk_later; [|done]. lia.
    + rewrite Forall_forall in Hr.
      destruct (Hr x) as (n & Hn & Hc); [by eapply list_elem_of_lookup_2|].
      exists n. split; [lia|done].
Qed.

Lemma createdOk_step clk c w :
  monotone clk → createdOk clk w → createdOk clk (exec (step clk c) w).
Proof.
  intros Hmono Hw.
  destruct (step_effect clk c w); try done;
    try (by eapply createdOk_replaceAt); destruct Hw as [Hs Hr];
    split; simpl.
  - rewrite fmap_app. apply StronglySorted_app. split_and!;
      [|done|repeat constructor].
    intros a b (y & -> & Hy)%list_elem_of_fmap ->%list_elem_of_singleton.
    rewrite Forall_forall in Hr. destruct (Hr y Hy) as (n & Hn & ->).
    simpl. apply Hmono. lia.
  - apply Forall_app. split.
    + eapply createdOk_later; [|done]. lia.
    + apply Forall_singleton. exists (reads w). split; [lia|done].
  - rewrite list_fmap_delete.
    eapply sublist_StronglySorted; [apply sublist_delete|done].
  - by apply Forall_delete.
  - eapply sublist_StronglySorted; [|done].
    apply fmap_sublist, sublist_filter.
  - eapply sublist_Forall; [apply sublist_filter|done].
  - constructor.
  - constructor.
Qed.

Lemma createdOk_run clk cs w :
  monotone clk → createdOk clk w → createdOk clk (run clk cs w).
Proof.
  intros Hmono. revert w.
  induction cs as [|c cs IH]; intros w Hw; simpl; [done|].
  by apply IH, createdOk_step.
Qed.

(** X13. Under a monotonic clock, in every reachable state the
    [createdAt] stamps do not decrease along the collection: a task
    further down the list was not created before one above it. *)
Theorem createdAt_sorted clk w :
  monotone clk → reachable clk w →
  StronglySorted Z.le (createdAt <$> tasks w).
Proof.
  intros Hmono [cs ->].
  apply (createdOk_run clk cs init Hmono). split; constructor.
Qed.

Lemma createdAt_sorted_witness :
  monotone tick ∧ reachable tick (twoTasks tick) ∧
  StronglySorted Z.le (createdAt <$> tasks (twoTasks tick)).
Proof.
  split_and!; [apply monotone_tick|apply reachable_run|].
  apply (createdAt_sorted tick (twoTasks tick) monotone_tick
           (reachable_run tick _)).
Defined.

(* ===================================================================== *)
(** ** What a call leaves alone *)
(* ===================================================================== *)

Lemma same_id_same_task (l : list Task) (x y : Task) :
  NoDup (id <$> l) → x ∈ l → y ∈ l → id y = id x → y = x.
Proof.
  intros Hnd [j Hj]%list_elem_of_lookup [k Hk]%list_elem_of_lookup Hid.
  assert (k = j) as ->; [|congruence].
  eapply NoDup_lookup; [done|..]; rewrite list_lookup_fmap.
  - by rewrite Hk.
  - rewrite Hj. simpl. by rewrite Hid.
Qed.

Lemma elem_of_insert_inv {A} (l : list A) (k : nat) (a y : A) :
  y ∈ <[k:=a]> l → y = a ∨ y ∈ l.
Proof.
  intros [j Hj]%list_elem_of_lookup.
  apply list_lookup_insert_Some in Hj as [(_ & Ha & _)|[_ Hj]].
  - by left.
  - right. by eapply list_elem_of_lookup_2.
Qed.

(** X14. In a reachable state, a task that is still in the collection
    after a call (same id) has the [createdAt] it had; unless the call is
    [updateTask] it also has the title and the description it had; and
    unless the call is [updateTask] or [toggleTaskComplete] it is the
    very same record. *)
Theorem step_leaves_alone clk c w x y :
  reachable clk w →
  x ∈ tasks w → y ∈ tasks (exec (step clk c) w) → id y = id x →
  createdAt y = createdAt x ∧
  match c with
  | CUpdateTask _ _ => True
  | CToggleTaskComplete _ => title y = title x ∧ description y = description x
  | _ => y = x
  end.
Proof.
  intros [Hs Hlt]%reachable_ids Hx.
  apply StronglySorted_lt_NoDup in Hs.
  destruct (step_effect clk c w) as
    [t d H|t d H|i u H|i u k x0 H|i H|i k x0 H|i H|i k x0 H| |];
    simpl; intros Hy Hid.
  - by rewrite (same_id_same_task _ _ _ Hs Hx Hy Hid).
  - apply elem_of_app in Hy as [Hy| ->%list_elem_of_singleton].
    + by rewrite (same_id_same_task _ _ _ Hs Hx Hy Hid).
    + rewrite Forall_forall in Hlt. specialize (Hlt x Hx).
      simpl in Hlt, Hid. lia.
  - by rewrite (same_id_same_task _ _ _ Hs Hx Hy Hid).
  - split; [|done]. apply elem_of_insert_inv in Hy as [->|Hy].
    + apply list_find_Some in H as (Hk & _).
      apply list_elem_of_lookup_2 in Hk.
      by rewrite (same_id_same_task _ _ _ Hs Hx Hk Hid).
    + by rewrite (same_id_same_task _ _ _ Hs Hx Hy Hid).
  - by rewrite (same_id_same_task _ _ _ Hs Hx Hy Hid).
  - apply list_elem_of_delete_inv in Hy.
    by rewrite (same_id_same_task _ _ _ Hs Hx Hy Hid).
  - by rewrite (same_id_same_task _ _ _ Hs Hx Hy Hid).
  - apply elem_of_insert_inv in Hy as [->|Hy].
    + apply list_find_Some in H as (Hk & _).
      apply list_elem_of_lookup_2 in Hk.
      by rewrite (same_id_same_task _ _ _ Hs Hx Hk Hid).
    + by rewrite (same_id_same_task _ _ _ Hs Hx Hy Hid).
  - apply list_elem_of_filter in Hy as [_ Hy].
    by rewrite (same_id_same_task _ _ _ Hs Hx Hy Hid).
  - by apply elem_of_nil in Hy.
Qed.

Lemma step_leaves_alone_witness :
  reachable tick (twoTasks tick) ∧
  mkTask 2 (js "B") [] false 2 3 ∈ tasks (twoTasks tick) ∧
  mkTask 2 (js "B") [] false 2 3 ∈
    tasks (exec (step tick (CDeleteTask 1)) (twoTasks tick)) ∧
  id (mkTask 2 (js "B") [] false 2 3) = id (mkTask 2 (js "B") [] false 2 3) ∧
  (createdAt (mkTask 2 (js "B") [] false 2 3) =
     createdAt (mkTask 2 (js "B") [] false 2 3) ∧
   mkTask 2 (js "B") [] false 2 3 = mkTask 2 (js "B") [] false 2 3).
Proof.
  assert (H1 : mkTask 2 (js "B") [] false 2 3 ∈ tasks (twoTasks tick)).
  { apply list_elem_of_lookup. by exists 1%nat. }
  assert (H2 : mkTask 2 (js "B") [] false 2 3 ∈
                 tasks (exec (step tick (CDeleteTask 1)) (twoTasks tick))).
  { apply list_elem_of_lookup. by exists 0%nat. }
  split; [apply reachable_run|]. split; [exact H1|]. split; [exact H2|].
  split; [reflexivity|].
  apply (step_leaves_alone tick (CDeleteTask 1) (twoTasks tick) _ _
           (reachable_run tick _) H1 H2 eq_refl).
Defined.

(* ===================================================================== *)
(** ** The presentation layer *)
(* ===================================================================== *)

Lemma dispatch_one {E} (h : E → M unit) (e : E) (w : World) :
  dispatch h [e] w = h e w.
Proof.
  simpl. unfold mbind, M_bind. by destruct (h e w) as [[] w'].
Qed.

(** X15. Submitting the form of [TaskInput.vue] inside [App.vue] either
    changes nothing at all, neither the form nor the store (when the
    title typed is blank), or empties and collapses the form and appends
    exactly one task carrying the trimmed title and the trimmed
    description: the store never drops a title the form has let through,
    and trimming twice (in the form, then in the store) changes nothing
    more. *)
Theorem submit_spec clk f w :
  submit clk f w =
    if decide (trim (f_title f) = []) then (f, w)
    else (mkForm [] [] false,
          mkWorld
            (tasks w ++
               [mkTask (nextId w) (trim (f_title f)) (trim (f_description f))
                  false (clk (reads w)) (clk (S (reads w)))])
            (nextId w + 1) (S (S (reads w)))).
Proof.
  unfold submit, TaskInput_addTask.
  destruct (decide (trim (f_title f) = [])) as [H|H].
  - by rewrite bool_decide_eq_true_2.
  - rewrite bool_decide_eq_false_2 by done. cbn [fst snd]. f_equal.
    unfold exec. rewrite dispatch_one. simpl. unfold handleAddTask.
    rewrite addTask_fresh by by rewrite trim_idem.
    unfold newTaskOf. simpl. by rewrite !trim_idem.
Qed.

Lemma elem_of_delete_other {A} (l : list A) (k : nat) (a y : A) :
  l !! k = Some a → y ∈ l → y ≠ a → y ∈ delete k l.
Proof.
  intros Hk Hy Hne. rewrite delete_take_drop.
  rewrite <- (take_drop_middle l k a Hk) in Hy.
  apply elem_of_app in Hy as [Hy|Hy]; apply elem_of_app; [by left|].
  apply elem_of_cons in Hy as [->|Hy]; [done|by right].
Qed.

(** X16. The Delete button of a [TaskItem] does the same whichever task
    the item shows: it runs [deleteTask(1)]. A shown task whose id is not
    1 is therefore still in the collection after its own Delete button
    was clicked. *)
Theorem clickDelete_ignores_item clk x w :
  x ∈ tasks w → id x ≠ 1 →
  clickDelete clk x w = deleteTask 1 w ∧
  x ∈ tasks (exec (clickDelete clk x) w).
Proof.
  intros Hx Hid.
  assert (E : clickDelete clk x w = deleteTask 1 w).
  { unfold clickDelete. simpl. apply dispatch_one. }
  split; [done|]. unfold exec. rewrite E.
  destruct (list_find (λ task, id task = 1) (tasks w)) as [[k x0]|] eqn:H.
  - erewrite deleteTask_hit by done. simpl.
    apply list_find_Some in H as (Hk & Hid0 & _).
    eapply elem_of_delete_other; [done..|]. congruence.
  - by rewrite deleteTask_miss.
Qed.

Lemma clickDelete_ignores_item_witness :
  mkTask 2 (js "B") [] false 2 3 ∈ tasks (twoTasks tick) ∧
  id (mkTask 2 (js "B") [] false 2 3) ≠ 1 ∧
  (clickDelete tick (mkTask 2 (js "B") [] false 2 3) (twoTasks tick) =
     deleteTask 1 (twoTasks tick) ∧
   mkTask 2 (js "B") [] false 2 3 ∈
     tasks (exec (clickDelete tick (mkTask 2 (js "B") [] false 2 3))
              (twoTasks tick))).
Proof.
  assert (H1 : mkTask 2 (js "B") [] false 2 3 ∈ tasks (twoTasks tick)).
  { apply list_elem_of_lookup. by exists 1%nat. }
  assert (H2 : id (mkTask 2 (js "B") [] false 2 3) ≠ 1) by (simpl; lia).
  split; [exact H1|]. split; [exact H2|].
  apply (clickDelete_ignores_item tick _ (twoTasks tick) H1 H2).
Defined.

Lemma filter_completed_completed (l : list Task) :
  filter (λ task, completed task = true)
    (filter (λ task, completed task = true) l) =
  filter (λ task, completed task = true) l.
Proof.
  induction l as [|a l IH]; [done|].
  destruct a as [i t d [] c u]; repeat (rewrite filter_cons; simpl);
    [by rewrite IH|done].
Qed.

(** X17. [App.vue] filters the collection and [TaskList.vue] filters the
    result again by the same mode; the second pass removes nothing: in
    every mode the list shown is the list [App.vue] computed, a
    subsequence of the collection. *)
Theorem shownTasks_spec m w :
  shownTasks m w = App_filteredTasks m w ∧
  shownTasks m w `sublist_of` tasks w.
Proof.
  unfold shownTasks, filteredTasks, App_filteredTasks, pendingTasks,
    completedTasks.
  destruct m; simpl; rewrite ?filter_pending_pending,
    ?filter_completed_completed; (split; [done|]);
    [done|apply sublist_filter..].
Qed.

(* ===================================================================== *)
(** ** The views after addTask and toggleTaskComplete *)
(* ===================================================================== *)

(** X18. A task added with a non-blank title joins the pending tasks, at
    their end, and the completed tasks are the ones there were. *)
Theorem addTask_views clk t d w :
  trim t ≠ [] →
  pendingTasks (exec (addTask clk t d) w) =
    pendingTasks w ++ [newTaskOf clk t d w] ∧
  completedTasks (exec (addTask clk t d) w) = completedTasks w ∧
  totalTasks (exec (addTask clk t d) w) = totalTasks w + 1.
Proof.
  intros H. unfold exec, pendingTasks, completedTasks, totalTasks.
  rewrite addTask_fresh by done. simpl tasks.
  rewrite !filter_app, length_app.
  repeat (rewrite filter_cons; simpl). rewrite !filter_nil, app_nil_r.
  split_and!; [done..|]. simpl. lia.
Qed.

Lemma addTask_views_witness :
  trim (js "B") ≠ [] ∧
  (pendingTasks (exec (addTask tick (js "B") None) (oneTask tick)) =
     pendingTasks (oneTask tick) ++
       [newTaskOf tick (js "B") None (oneTask tick)] ∧
   completedTasks (exec (addTask tick (js "B") None) (oneTask tick)) =
     completedTasks (oneTask tick) ∧
   totalTasks (exec (addTask tick (js "B") None) (oneTask tick)) =
     totalTasks (oneTask tick) + 1).
Proof.
  assert (H : trim (js "B") ≠ []) by (vm_compute; discriminate).
  split; [exact H|].
  apply (addTask_views tick (js "B") None (oneTask tick) H).
Defined.



